(** * TD-PSD feature extraction ([getTDPSDfeatv3.py]): a shallow embedding

    The program is a NumPy port of Khushaba's time-domain power spectral
    descriptors.  It has two functions:

    - [getTDPSDfeatv3 x *slidingParams]: slides a window of [winsize] rows,
      spaced [wininc] rows apart, over the signal matrix [x] and fills one
      row of the feature matrix per window;
    - [KSM1 S]: the six moment features of one window.

    Arithmetic.  The program computes on IEEE binary64 numbers and calls the
    C library for [log] and [**].  The embedding is parametric in the scalar
    type: a class [Float64] lists the operations the program uses, and
    every definition below is written over an arbitrary instance.  Results
    that need no arithmetic law hold for every instance.  Results that do
    need one take the law as a hypothesis, and [Rfloat], the instance over
    the real numbers, shows the hypotheses satisfiable.  [Binary64] is the
    instance over the machine numbers, with the two C library functions,
    NumPy's sum of a column and the window count on an inexact quotient as
    parameters.

    Arrays.  A 2-D [ndarray] is a record of its memory order, its shape and
    its rows; a 1-D array is a [list].  Python integers are [Z]; shapes are
    [nat].

    Sums.  NumPy adds the values of a column in an association that depends
    on how the array lies in memory: along an axis that is contiguous it
    adds eight or more values pairwise, along a strided axis one after the
    other.  The embedding does not fix the association.  The sum of two or
    more values is the class operation [add_reduce], which is given the
    memory order and the shape of the array and the index of the column;
    every result holds for whatever [add_reduce] computes.  The arrays carry
    their memory order for this reason, and [np.transpose] changes it.

    Conventions taken from NumPy and Python and modelled here:
    - [np.int] is the builtin [int] (its meaning up to NumPy 1.23);
    - [a / b] on Python integers is the binary64 number nearest to the
      quotient, and [a / 0] raises [ZeroDivisionError]; [np.floor (a / b)] is
      the floor of the quotient for [a >= 0] and [b > 0] ([a] is then below
      the row count of an array) and for magnitudes below 2^53; elsewhere
      the count of line 59 is the class operation [count_inexact];
    - [np.zeros] raises [ValueError] on a negative dimension;
    - [feat[i,:] = v] needs [v] of the row's length, or of length 1;
    - [np.sum (_, axis=0)] of no rows is the zero vector, and of one row the
      row: the program sums squares and absolute values, which are never
      [-0.0], so adding one to the initial zero returns it;
    - [a ** 2] is NumPy's square, [a * a];
    - [np.spacing (1)] is the distance from 1.0 to the next larger number. *)

From Stdlib Require Import Floats.
From Stdlib Require Import List ZArith Lia Bool Arith.
From Stdlib Require Import Reals Lra.
Import ListNotations.

Set Implicit Arguments.

(** ** Exceptions and results *)

Inductive exn : Type :=
| TypeError (got : nat)            (* wrong number of sliding parameters *)
| ZeroDivisionError                (* [(datasize - winsize) / 0] *)
| ValueErrorNegativeDim            (* [np.zeros] on a negative dimension *)
| ValueErrorBroadcast (from into : nat)  (* [feat[i,:] = v], lengths differ *)
| IndexError                       (* row index out of bounds *)
| OverflowError                    (* an integer quotient too large for a float *)
| SystemError.                     (* a reference to no object *)

Inductive result (A : Type) : Type :=
| Ok (a : A)
| Raise (e : exn).

Arguments Ok {A} a.
Arguments Raise {A} e.

Definition rbind {A B} (r : result A) (k : A -> result B) : result B :=
  match r with
  | Ok a => k a
  | Raise e => Raise e
  end.

Notation "x <- r ;; k" := (rbind r (fun x => k))
  (at level 61, r at next level, right associativity).

(** ** Memory order

    The order of an array's axes in memory: row after row ([C_order]) or
    column after column ([F_order]).  [np.transpose] returns a view of the
    same memory, so it turns one order into the other. *)

Inductive memory_order : Type :=
| C_order
| F_order.

Definition flip_order (o : memory_order) : memory_order :=
  match o with
  | C_order => F_order
  | F_order => C_order
  end.

(** ** Scalars *)

Class Float64 (F : Type) : Type := {
  fadd : F -> F -> F;
  fsub : F -> F -> F;
  fmul : F -> F -> F;
  fdiv : F -> F -> F;
  fneg : F -> F;
  fsqrt : F -> F;
  fabs : F -> F;
  flog : F -> F;
  fpow : F -> F -> F;
  fint : Z -> F;            (* a Python integer used as a float *)
  point1 : F;               (* the literal [.1] *)
  spacing1 : F;             (* [np.spacing(1)] *)
  (* [np.add.reduce] over the two or more values of one column: of column
     [j] of an array of memory order [o] with [rows] rows and [cols]
     columns.  NumPy chooses the association of the additions by the
     array's strides and shape. *)
  add_reduce : forall (o : memory_order) (rows cols j : nat), list F -> F;
  (* [np.int (np.floor (a / b) + 1)] on Python integers [a] and [b <> 0]
     whose binary64 quotient can round or overflow; [None] is
     [OverflowError]. *)
  count_inexact : Z -> Z -> option Z
}.

(** ** Lists as 1-D arrays *)

Section Vectors.
Context {A B C : Type}.

Fixpoint map2 (f : A -> B -> C) (u : list A) (v : list B) : list C :=
  match u, v with
  | a :: u', b :: v' => f a b :: map2 f u' v'
  | _, _ => []
  end.
End Vectors.

(** [l[i] = a] on a list; out of range it leaves the list as it is (the
    callers check the range first). *)
Fixpoint set_nth {A} (i : nat) (a : A) (l : list A) : list A :=
  match l, i with
  | [], _ => []
  | _ :: l', O => a :: l'
  | b :: l', S i' => b :: set_nth i' a l'
  end.

(** ** Python slicing *)

(** A slice bound [i] on a sequence of length [n]: a negative bound counts
    from the end, and every bound is clipped to [0..n]. *)
Definition py_bound (n : nat) (i : Z) : nat :=
  if (i <? 0)%Z
  then Z.to_nat (Z.max 0 (i + Z.of_nat n))
  else Nat.min (Z.to_nat i) n.

Section Arrays.
Context {F : Type} {FO : Float64 F}.

Definition fzero : F := fint 0.
Definition fsqr (a : F) : F := fmul a a.

(** ** 2-D arrays *)

Record ndarray : Type := mkview {
  order : memory_order;
  shape0 : nat;
  shape1 : nat;
  data : list (list F)
}.

(** A new array, as [np.array], [np.zeros] and [np.concatenate] lay it
    out: row after row. *)
Local Abbreviation mkarr := (mkview C_order).

Definition wf (M : ndarray) : Prop :=
  length (data M) = shape0 M /\
  Forall (fun r => length r = shape1 M) (data M).

(** An elementwise operation; the result takes the memory order of its
    (first) operand. *)
Definition amap (f : F -> F) (M : ndarray) : ndarray :=
  mkview (order M) (shape0 M) (shape1 M) (map (map f) (data M)).

Definition amap2 (f : F -> F -> F) (M N : ndarray) : ndarray :=
  mkview (order M) (shape0 M) (shape1 M) (map2 (map2 f) (data M) (data N)).

(** [np.transpose]: column [j] of [M] becomes row [j], in the same
    memory. *)
Fixpoint columns (n : nat) (rows : list (list F)) : list (list F) :=
  match n with
  | O => []
  | S n' => flat_map (firstn 1) rows :: columns n' (map (skipn 1) rows)
  end.

Definition transpose (M : ndarray) : ndarray :=
  mkview (flip_order (order M)) (shape1 M) (shape0 M)
         (columns (shape1 M) (data M)).

(** [v[:, np.newaxis]] *)
Definition newaxis (v : list F) : ndarray :=
  mkarr (length v) 1 (map (fun a => [a]) v).

(** [np.concatenate (Ms, axis=0)] *)
Definition concatenate (Ms : list ndarray) : ndarray :=
  mkarr (list_sum (map shape0 Ms))
        (match Ms with [] => 0 | M :: _ => shape1 M end)
        (concat (map data Ms)).

(** [M.flatten()], row-major *)
Definition flatten (M : ndarray) : list F := concat (data M).

(** Column [j] of [M], from the first row to the last. *)
Definition column (j : nat) (M : ndarray) : list F :=
  map (fun r => nth j r fzero) (data M).

(** The sum of one column: of no value it is zero, of one value the value
    (a square or an absolute value added to the initial zero), and of more
    values what [np.add.reduce] gives for this array. *)
Definition sum_column (o : memory_order) (rows cols j : nat) (l : list F)
  : F :=
  match l with
  | [] => fzero
  | [a] => a
  | _ => add_reduce o rows cols j l
  end.

(** [np.sum (M, axis=0)] *)
Definition sum_axis0 (M : ndarray) : list F :=
  map (fun j => sum_column (order M) (shape0 M) (shape1 M) j (column j M))
      (seq 0 (shape1 M)).

(** [np.diff (M, n=1, axis=0)] *)
Fixpoint diff_rows (rows : list (list F)) : list (list F) :=
  match rows with
  | r1 :: (r2 :: _) as rest => map2 fsub r2 r1 :: diff_rows rest
  | _ => []
  end.

Definition diff_axis0 (M : ndarray) : ndarray :=
  mkview (order M) (pred (shape0 M)) (shape1 M) (diff_rows (data M)).

(** [x[st:en, :]] *)
Definition getrows (x : ndarray) (st en : Z) : ndarray :=
  let a := py_bound (shape0 x) st in
  let b := py_bound (shape0 x) en in
  mkview (order x) (b - a) (shape1 x) (firstn (b - a) (skipn a (data x))).

(** [np.zeros ((r, c))] *)
Definition np_zeros (r : Z) (c : nat) : result ndarray :=
  if (r <? 0)%Z then Raise ValueErrorNegativeDim
  else Ok (mkarr (Z.to_nat r) c (repeat (repeat fzero c) (Z.to_nat r))).

(** [M[i, :] = v] *)
Definition setitem_row (M : ndarray) (i : nat) (v : list F)
  : result ndarray :=
  if shape0 M <=? i then Raise IndexError
  else if length v =? shape1 M then
    Ok (mkview (order M) (shape0 M) (shape1 M) (set_nth i v (data M)))
  else match v with
       | [a] => Ok (mkview (order M) (shape0 M) (shape1 M)
                           (set_nth i (repeat a (shape1 M)) (data M)))
       | _ => Raise (ValueErrorBroadcast (length v) (shape1 M))
       end.

(** ** The moment extractor [KSM1] *)

(** Lines 105-109: the window is transposed when it has more columns than
    rows. *)
Definition KSM1_orient (S : ndarray) : ndarray :=
  let samples := shape0 S in
  let channels := shape1 S in
  if samples <? channels then transpose S else S.

(** [m ** .1 / .1] *)
Definition normalise (m : ndarray) : ndarray :=
  amap (fun v => fdiv (fpow v point1) point1) m.

(** The locals of [KSM1] after the orientation step, as functions of the
    oriented window. *)
Definition KSM1_m0 (S : ndarray) : ndarray :=
  normalise (newaxis (map fsqrt (sum_axis0 (amap fsqr S)))).

Definition KSM1_d1 (S : ndarray) : ndarray := diff_axis0 S.
Definition KSM1_d2 (S : ndarray) : ndarray := diff_axis0 (KSM1_d1 S).

Definition over_samples_minus_1 (S : ndarray) (v : F) : F :=
  fdiv v (fint (Z.of_nat (shape0 S) - 1)).

Definition KSM1_m2 (S : ndarray) : ndarray :=
  normalise (newaxis (map fsqrt
    (map (over_samples_minus_1 S) (sum_axis0 (amap fsqr (KSM1_d1 S)))))).

Definition KSM1_m4 (S : ndarray) : ndarray :=
  normalise (newaxis (map fsqrt
    (map (over_samples_minus_1 S) (sum_axis0 (amap fsqr (KSM1_d2 S)))))).

Definition KSM1_sparsi_den (S : ndarray) : ndarray :=
  let m0 := KSM1_m0 S in
  amap fsqrt (amap fabs
    (amap2 fmul (amap2 fsub m0 (KSM1_m2 S)) (amap2 fsub m0 (KSM1_m4 S)))).

Definition KSM1_sparsi (S : ndarray) : ndarray :=
  amap2 fdiv (KSM1_m0 S) (KSM1_sparsi_den S).

Definition KSM1_IRF_den (S : ndarray) : ndarray :=
  amap fsqrt (amap2 fmul (KSM1_m0 S) (KSM1_m4 S)).

Definition KSM1_IRF (S : ndarray) : ndarray :=
  amap2 fdiv (KSM1_m2 S) (KSM1_IRF_den S).

Definition KSM1_WLR (S : ndarray) : ndarray :=
  newaxis (map2 fsub (sum_axis0 (amap fabs (KSM1_d1 S)))
                     (sum_axis0 (amap fabs (KSM1_d2 S)))).

(** Lines 111-139. *)
Definition KSM1_body (S : ndarray) : list F :=
  let m0 := KSM1_m0 S in
  let m2 := KSM1_m2 S in
  let m4 := KSM1_m4 S in
  let sparsi := KSM1_sparsi S in
  let IRF := KSM1_IRF S in
  let WLR := KSM1_WLR S in
  let Feat :=
    concatenate [m0; amap2 fsub m0 m2; amap2 fsub m0 m4; sparsi; IRF; WLR] in
  flatten (amap (fun v => flog (fabs v)) Feat).

Definition KSM1 (S : ndarray) : list F := KSM1_body (KSM1_orient S).

(** ** The windower [getTDPSDfeatv3] *)

Definition NFPC : nat := 6.

(** Lines 73-78 and the right-hand side of line 81. *)
Definition window_features (curwin : ndarray) : list F :=
  let ebp := KSM1 curwin in
  let efp := KSM1 (amap (fun v => flog (fadd (fsqr v) spacing1)) curwin) in
  let num := map (fmul (fint (-2))) (map2 fmul efp ebp) in
  let den := map2 fadd (map2 fmul efp efp) (map2 fmul ebp ebp) in
  map2 fsub num den.

(** The loop of lines 68-83 over the remaining indices [idxs] of
    [range(numwin)], with the loop-carried [st], [en] and [feat]. *)
Fixpoint window_loop (x : ndarray) (wininc : Z) (idxs : list nat)
         (st en : Z) (feat : ndarray) : result ndarray :=
  match idxs with
  | [] => Ok feat
  | i :: idxs' =>
      let curwin := getrows x st en in
      feat' <- setitem_row feat i (window_features curwin) ;;
      window_loop x wininc idxs' (st + wininc) (en + wininc) feat'
  end.

(** Line 59, [np.int (np.floor (a / b) + 1)] with [a = datasize - winsize]
    and [b = wininc].  [a / b] is the binary64 number nearest to the
    quotient of the two Python integers.  Its floor is the floor of the
    quotient when [a >= 0] and [b > 0] ([a] is below the number of rows of
    an array, which is below 2^53), and when both magnitudes are below
    2^53.  Elsewhere the quotient can round across an integer, underflow to
    zero or overflow, and the count is what the machine arithmetic
    gives. *)
Definition exact_quotient (a b : Z) : bool :=
  ((0 <=? a)%Z && (0 <? b)%Z)
  || ((Z.abs a <? 2 ^ 53)%Z && (Z.abs b <? 2 ^ 53)%Z).

Definition line59_numwin (a b : Z) : result Z :=
  if (b =? 0)%Z then Raise ZeroDivisionError
  else if exact_quotient a b then Ok (a / b + 1)%Z
  else match count_inexact a b with
       | Some n => Ok n
       | None => Raise OverflowError
       end.

Definition getTDPSDfeatv3 (x : ndarray) (slidingParams : list Z)
  : result ndarray :=
  if length slidingParams <? 2
  then Raise (TypeError (length slidingParams))
  else
    let winsize := nth 0 slidingParams 0%Z in
    let wininc := nth 1 slidingParams 0%Z in
    let datasize := shape0 x in
    let Nsignals := shape1 x in
    numwin <- line59_numwin (Z.of_nat datasize - winsize) wininc ;;
    feat <- np_zeros numwin (Nsignals * NFPC) ;;
    window_loop x wininc (seq 0 (Z.to_nat numwin)) 0%Z winsize feat.

End Arrays.

Arguments ndarray F : clear implicits.

Abbreviation mkarr := (mkview C_order).

(** ** The object store

    The caller hands [getTDPSDfeatv3] a reference to its signal matrix.  The
    store holds the array objects by address.  [np.array (x)] allocates a
    copy; [x[st:en, :]] is a view, read through the copy when it is used;
    [np.zeros] allocates [feat]; [feat[i, :] = v] is the only write.  The
    temporaries of the arithmetic are fresh values that nothing else
    references, so they stay values. *)

Section Store.
Context {F : Type} {FO : Float64 F}.

Definition loc : Type := nat.
Definition heap : Type := list (ndarray F).

Definition M (A : Type) : Type := heap -> result A * heap.

Definition ret {A} (a : A) : M A := fun h => (Ok a, h).

Definition bind {A B} (m : M A) (k : A -> M B) : M B :=
  fun h =>
    match m h with
    | (Ok a, h') => k a h'
    | (Raise e, h') => (Raise e, h')
    end.

Definition lift {A} (r : result A) : M A := fun h => (r, h).

Definition alloc (A : ndarray F) : M loc :=
  fun h => (Ok (length h), h ++ [A]).

Definition load (l : loc) : M (ndarray F) :=
  fun h =>
    match nth_error h l with
    | Some A => (Ok A, h)
    | None => (Raise SystemError, h)
    end.

Definition store (l : loc) (A : ndarray F) : M unit :=
  fun h =>
    if l <? length h then (Ok tt, set_nth l A h)
    else (Raise SystemError, h).

Notation "x <~ m ;; k" := (bind m (fun x => k))
  (at level 61, m at next level, right associativity).

(** [np.array (x)]: a new array with the contents of [x]. *)
Definition np_array (xl : loc) : M loc :=
  A <~ load xl ;; alloc A.

(** Reading the view [x[st:en, :]]. *)
Definition read_rows (xl : loc) (st en : Z) : M (ndarray F) :=
  A <~ load xl ;; ret (getrows A st en).

(** [feat[i, :] = v] on the object at [fl]. *)
Definition setitem_row_at (fl : loc) (i : nat) (v : list F) : M unit :=
  A <~ load fl ;;
  A' <~ lift (setitem_row A i v) ;;
  store fl A'.

Fixpoint window_loop_heap (xl : loc) (wininc : Z) (idxs : list nat)
         (st en : Z) (fl : loc) : M unit :=
  match idxs with
  | [] => ret tt
  | i :: idxs' =>
      curwin <~ read_rows xl st en ;;
      _ <~ setitem_row_at fl i (window_features curwin) ;;
      window_loop_heap xl wininc idxs' (st + wininc) (en + wininc) fl
  end.

Definition getTDPSDfeatv3_heap (xl : loc) (slidingParams : list Z) : M loc :=
  xl' <~ np_array xl ;;
  if length slidingParams <? 2
  then lift (Raise (TypeError (length slidingParams)))
  else
    let winsize := nth 0 slidingParams 0%Z in
    let wininc := nth 1 slidingParams 0%Z in
    x <~ load xl' ;;
    let datasize := shape0 x in
    let Nsignals := shape1 x in
    numwin <~ lift (line59_numwin (Z.of_nat datasize - winsize) wininc) ;;
    feat <~ lift (np_zeros numwin (Nsignals * NFPC)) ;;
    fl <~ alloc feat ;;
    _ <~ window_loop_heap xl' wininc (seq 0 (Z.to_nat numwin))
           0%Z winsize fl ;;
    ret fl.

End Store.

(** ** The real numbers as scalars

    Exact arithmetic: no rounding, no infinities and no NaN.  [0 ** y] is
    [0], as in C; division by zero is [0], as in the library of reals.  A
    sum is the same in every association, and the window count is the
    floor of the quotient plus one everywhere. *)

Definition Rpow (x y : R) : R :=
  if Req_dec_T x 0 then 0%R else Rpower x y.

#[export] Instance Rfloat : Float64 R := {|
  fadd := Rplus;
  fsub := Rminus;
  fmul := Rmult;
  fdiv := Rdiv;
  fneg := Ropp;
  fsqrt := sqrt;
  fabs := Rabs;
  flog := ln;
  fpow := Rpow;
  fint := IZR;
  point1 := (1 / 10)%R;
  spacing1 := (/ 2 ^ 52)%R;
  add_reduce := fun _ _ _ _ l => fold_right Rplus 0%R l;
  count_inexact := fun a b => Some (a / b + 1)%Z
|}.

(** ** Binary64 numbers as scalars

    The machine arithmetic of the program: [+], [-], [*], [/], [sqrt] and
    [abs] are the IEEE operations on binary64, which the primitive floats
    compute.  [log] and [**] come from the C library and are parameters, and
    so are NumPy's sum of a column and the window count of line 59 where the
    quotient is inexact. *)

(** [np.spacing (x)] for [x >= 0]: the distance from [x] to the next larger
    number. *)
Definition np_spacing (x : float) : float :=
  PrimFloat.sub (PrimFloat.next_up x) x.

(** A Python integer as a float; exact below 2^53. *)
Fixpoint float_of_pos (p : positive) : float :=
  match p with
  | xH => 1%float
  | xO q => PrimFloat.mul 2%float (float_of_pos q)
  | xI q => PrimFloat.add (PrimFloat.mul 2%float (float_of_pos q)) 1%float
  end.

Definition float_of_Z (z : Z) : float :=
  match z with
  | Z0 => 0%float
  | Zpos p => float_of_pos p
  | Zneg p => PrimFloat.opp (float_of_pos p)
  end.

(** The sign-flip relation on the machine numbers, read on their
    specification: [y] is [x] with the sign flipped, or both are zeros. *)
Definition SFzero (x : spec_float) : bool :=
  match x with
  | S754_zero _ => true
  | _ => false
  end.

Definition SFanti (x y : spec_float) : Prop :=
  y = SFopp x \/ (SFzero x = true /\ SFzero y = true).

Definition float_anti (a b : float) : Prop :=
  SFanti (Prim2SF a) (Prim2SF b).

Definition Binary64 (libm_log : float -> float)
           (libm_pow : float -> float -> float)
           (np_add_reduce :
              memory_order -> nat -> nat -> nat -> list float -> float)
           (np_count_inexact : Z -> Z -> option Z) : Float64 float := {|
  fadd := PrimFloat.add;
  fsub := PrimFloat.sub;
  fmul := PrimFloat.mul;
  fdiv := PrimFloat.div;
  fneg := PrimFloat.opp;
  fsqrt := PrimFloat.sqrt;
  fabs := PrimFloat.abs;
  flog := libm_log;
  fpow := libm_pow;
  fint := float_of_Z;
  point1 := 0x1.999999999999ap-4%float;   (* the double nearest to 0.1 *)
  spacing1 := np_spacing 1%float;
  add_reduce := np_add_reduce;
  count_inexact := np_count_inexact
|}.

(** The machine numbers for computations that call neither the C library
    nor NumPy's sum of two or more values nor the inexact count: the
    identity stands in for [log] and [**], and sums add from the left. *)
Definition Binary64_plain : Float64 float :=
  Binary64 (fun a => a) (fun a _ => a)
           (fun _ _ _ _ l => fold_left PrimFloat.add l 0%float)
           (fun _ _ => None).

Arguments heap F : clear implicits.
Arguments M F A : clear implicits.

(** ** One channel at a time

    [KSM1] works on whole arrays.  The definitions here read the same
    quantities channel by channel: [channel j S] is the signal of channel
    [j], [diff_signal] its first difference, [squares] its squares,
    [sum_over_time] NumPy's sum of the values of one channel, and
    [moment sum_sq samples] the formula
    [(sqrt (sum_sq / (samples - 1))) ** .1 / .1] on a sum of squares. *)

Section PerChannel.
Context {F : Type} {FO : Float64 F}.

Definition channel (j : nat) (S : ndarray F) : list F :=
  map (fun r => nth j r fzero) (data S).

Fixpoint diff_signal (s : list F) : list F :=
  match s with
  | a :: (b :: _) as rest => fsub b a :: diff_signal rest
  | _ => []
  end.

Definition squares (d : list F) : list F :=
  map (fun a => fmul a a) d.

(** The sum of the values [d] that one channel has over time, as NumPy adds
    them in column [j] of an array of memory order [o] with [rows] rows and
    [cols] columns: no value gives zero, one value gives the value, and
    more values are added in NumPy's association for that array. *)
Definition sum_over_time (o : memory_order) (rows cols j : nat)
           (d : list F) : F :=
  match d with
  | [] => fzero
  | [a] => a
  | _ :: _ :: _ => add_reduce o rows cols j d
  end.

Definition moment (sum_sq : F) (samples : nat) : F :=
  fdiv (fpow (fsqrt (fdiv sum_sq (fint (Z.of_nat samples - 1))))
             point1)
       point1.


(** The six per-channel quantities of [KSM1], one row each. *)
Definition stacked (S : ndarray F) : ndarray F :=
  let m0 := KSM1_m0 S in
  mkarr 6 (shape1 S)
        [flatten m0;
         flatten (amap2 fsub m0 (KSM1_m2 S));
         flatten (amap2 fsub m0 (KSM1_m4 S));
         flatten (KSM1_sparsi S);
         flatten (KSM1_IRF S);
         flatten (KSM1_WLR S)].

Definition all_length (n : nat) (rows : list (list F)) : Prop :=
  Forall (fun r => length r = n) rows.

(** Window [i]: rows [i * wininc, i * wininc + winsize) of [x]. *)
Definition window (x : ndarray F) (winsize wininc : Z) (i : nat)
  : ndarray F :=
  mkview (order x) (Z.to_nat winsize) (shape1 x)
         (firstn (Z.to_nat winsize)
                 (skipn (i * Z.to_nat wininc) (data x))).

(** [log (curwin ** 2 + eps)] *)
Definition log_power (curwin : ndarray F) : ndarray F :=
  amap (fun v => flog (fadd (fsqr v) spacing1)) curwin.

(** One entry of a feature row: [-2 * efp * ebp - (efp ** 2 + ebp ** 2)]. *)
Definition contrast (efp ebp : F) : F :=
  fsub (fmul (fint (-2)) (fmul efp ebp))
       (fadd (fmul efp efp) (fmul ebp ebp)).

(** The window count as the specification writes it. *)
Definition window_count (x : ndarray F) (winsize wininc : Z) : Z :=
  ((Z.of_nat (shape0 x) - winsize) / wininc + 1)%Z.

(** An array that is one column of [n] values. *)
Definition is_column (n : nat) (M : ndarray F) : Prop :=
  exists v, length v = n /\ data M = data (newaxis v).

(** Two arrays of one shape whose entries are related by [R], entry by
    entry. *)
Definition related (R : F -> F -> Prop) (M N : ndarray F) : Prop :=
  order M = order N /\ shape0 M = shape0 N /\ shape1 M = shape1 N /\
  Forall2 (Forall2 R) (data M) (data N).


(** A window of [samples] rows, each equal to [row]: channel [j] stays at
    entry [j] of [row]. *)
Definition constant_window (row : list F) (samples : nat) : ndarray F :=
  mkarr samples (length row) (repeat row samples).

End PerChannel.

Definition is_TypeError {A} (r : result A) : bool :=
  match r with
  | Raise (TypeError _) => true
  | _ => false
  end.

(** ** Further readings of the code *)

Section FurtherReadings.
Context {F : Type} {FO : Float64 F}.

(** The six features of channel [j] of a window of memory order [o] with
    [channels] columns, computed from the samples [s] of the channel as
    lines 111-137 compute them for every channel at once.  The sums are
    NumPy's sums of column [j] in arrays of that order and width. *)
Definition channel_features (o : memory_order) (channels j : nat)
           (s : list F) : list F :=
  let samples := length s in
  let sum rows l := sum_over_time o rows channels j l in
  let m0 := fdiv (fpow (fsqrt (sum samples (squares s))) point1) point1 in
  let d1 := diff_signal s in
  let d2 := diff_signal d1 in
  let m2 := moment (sum (samples - 1) (squares d1)) samples in
  let m4 := moment (sum (samples - 2) (squares d2)) samples in
  let sparsi := fdiv m0 (fsqrt (fabs (fmul (fsub m0 m2) (fsub m0 m4)))) in
  let IRF := fdiv m2 (fsqrt (fmul m0 m4)) in
  let WLR := fsub (sum (samples - 1) (map fabs d1))
                  (sum (samples - 2) (map fabs d2)) in
  map (fun v => flog (fabs v))
      [m0; fsub m0 m2; fsub m0 m4; sparsi; IRF; WLR].

(** The feature row of channel [j] of a window whose channel has the
    samples [s]: lines 73-81 for one channel. *)
Definition channel_row (o : memory_order) (channels j : nat) (s : list F)
  : list F :=
  map2 contrast
       (channel_features o channels j
          (map (fun a => flog (fadd (fmul a a) spacing1)) s))
       (channel_features o channels j s).

(** [x[n:, :]]: the signal without its first [n] rows. *)
Definition drop_rows (n : nat) (x : ndarray F) : ndarray F :=
  mkview (order x) (shape0 x - n) (shape1 x) (skipn n (data x)).

(** The signal with [rows] appended, in the memory order of [x]; for a
    signal stored row after row it is [np.vstack ((x, rows))]. *)
Definition append_rows (x : ndarray F) (rows : list (list F)) : ndarray F :=
  mkview (order x) (shape0 x + length rows) (shape1 x) (data x ++ rows).



End FurtherReadings.

(** ** Concrete inputs over the reals *)

Open Scope R_scope.

(** The one-channel signal 1, 2, 3, 4, 5, 6. *)
Definition signal_1_to_6 : ndarray R :=
  mkarr 6 1 [[1]; [2]; [3]; [4]; [5]; [6]].

(** Two samples of three channels. *)
Definition wide_signal : ndarray R :=
  mkarr 2 3 [[1; 2; 3]; [4; 5; 6]].

(** One sample of two channels. *)
Definition wide_row : ndarray R :=
  mkarr 1 2 [[1; 2]].

(** Two samples of one channel. *)
Definition short_signal : ndarray R :=
  mkarr 2 1 [[1]; [2]].


(** On the reals, [b] is [a] with the sign flipped. *)
Definition Ranti (a b : R) : Prop := b = - a.

(** Four samples of two channels. *)
Definition two_channel_signal : ndarray R :=
  mkarr 4 2 [[1; 2]; [3; 4]; [5; 6]; [7; 8]].

(** The one-channel signal 1, 4, 9, 16, 25, 36: its first difference is
    3, 5, 7, 9, 11 and its second difference is 2, 2, 2, 2. *)
Definition signal_of_squares : ndarray R :=
  mkarr 6 1 [[1]; [4]; [9]; [16]; [25]; [36]].


(** [wide_signal] with another first row. *)
Definition wide_signal_b : ndarray R :=
  mkarr 2 3 [[7; 8; 9]; [4; 5; 6]].

(** [two_channel_signal] with another first channel. *)
Definition two_channel_signal_b : ndarray R :=
  mkarr 4 2 [[0; 2]; [0; 4]; [0; 6]; [0; 8]].

Close Scope R_scope.

(** * Properties *)

(** ** Lists *)

Section ListFacts.
Context {A B C D : Type}.

Lemma map2_length (f : A -> B -> C) u v :
  length (map2 f u v) = Nat.min (length u) (length v).
Proof.
  revert v; induction u as [|a u IH]; intros [|b v]; simpl; auto.
Qed.

Lemma map_map2 (g : C -> D) (f : A -> B -> C) u v :
  map g (map2 f u v) = map2 (fun a b => g (f a b)) u v.
Proof.
  revert v; induction u as [|a u IH]; intros [|b v]; simpl; auto.
  now rewrite IH.
Qed.

Lemma map2_nth (f : A -> B -> C) u v j da db dc :
  j < length u -> j < length v ->
  nth j (map2 f u v) dc = f (nth j u da) (nth j v db).
Proof.
  revert v j; induction u as [|a u IH]; intros [|b v] [|j]; simpl;
    intros Hu Hv; try lia; auto.
  apply IH; lia.
Qed.


Lemma set_nth_app_mid (l1 : list A) b l2 a :
  set_nth (length l1) a (l1 ++ b :: l2) = l1 ++ a :: l2.
Proof.
  induction l1 as [|c l1 IH]; simpl; auto. now rewrite IH.
Qed.

Lemma Forall_firstn_keeps (P : A -> Prop) n l :
  Forall P l -> Forall P (firstn n l).
Proof.
  intros H; revert n; induction H; intros [|n]; simpl; auto.
Qed.

Lemma Forall_skipn_keeps (P : A -> Prop) n l :
  Forall P l -> Forall P (skipn n l).
Proof.
  intros H; revert n; induction H; intros [|n]; simpl; auto.
Qed.

End ListFacts.



Section Shapes.
Context {F : Type} {FO : Float64 F}.

Implicit Types (S M x : ndarray F) (rows : list (list F)).

(** ** Shapes of the array operations *)

Lemma wf_amap f M : wf M -> wf (amap f M).
Proof.
  intros [Hl Hr]; split; simpl.
  - now rewrite length_map.
  - apply Forall_map. eapply Forall_impl; [|exact Hr].
    intros r Hr'; simpl. now rewrite length_map.
Qed.

Lemma heads_length n rows :
  all_length (S n) rows -> length (flat_map (firstn 1) rows) = length rows.
Proof.
  induction 1 as [|r rows Hr _ IH]; simpl; auto.
  destruct r; simpl in *; [discriminate | now rewrite IH].
Qed.

Lemma tails_length n rows :
  all_length (S n) rows -> all_length n (map (skipn 1) rows).
Proof.
  induction 1 as [|r rows Hr _ IH]; simpl; constructor; auto.
  destruct r; simpl in *; [discriminate | lia].
Qed.

Lemma columns_length n rows : length (columns n rows) = n.
Proof.
  revert rows; induction n as [|n IH]; intros rows; simpl; auto.
Qed.

Lemma columns_all_length n rows :
  all_length n rows -> all_length (length rows) (columns n rows).
Proof.
  revert rows; induction n as [|n IH]; intros rows H; simpl.
  - constructor.
  - constructor.
    + eapply heads_length; eauto.
    + specialize (IH _ (tails_length H)).
      now rewrite length_map in IH.
Qed.

Lemma wf_transpose M : wf M -> wf (transpose M).
Proof.
  intros [Hl Hr]; split; simpl.
  - apply columns_length.
  - rewrite <- Hl. now apply columns_all_length.
Qed.





Lemma wf_orient S : wf S -> wf (KSM1_orient S).
Proof.
  intros H; unfold KSM1_orient.
  destruct (shape0 S <? shape1 S); auto using wf_transpose.
Qed.

End Shapes.

(** ** Orientation of the window *)

Section Orientation.
Context {F : Type} {FO : Float64 F}.

Implicit Types (S : ndarray F).

Lemma orient_wide S :
  shape0 S < shape1 S -> KSM1_orient S = transpose S.
Proof.
  intros H; unfold KSM1_orient.
  now apply Nat.ltb_lt in H; rewrite H.
Qed.

Lemma orient_tall S :
  shape1 S <= shape0 S -> KSM1_orient S = S.
Proof.
  intros H; unfold KSM1_orient.
  now apply Nat.ltb_ge in H; rewrite H.
Qed.





End Orientation.

(** ** The argument-count check *)

Section Arguments_check.
Context {F : Type} {FO : Float64 F}.

Implicit Types (x feat : ndarray F).

Lemma setitem_row_not_TypeError feat i v :
  is_TypeError (setitem_row feat i v) = false.
Proof.
  unfold setitem_row.
  destruct (shape0 feat <=? i); auto.
  destruct (length v =? shape1 feat); auto.
  destruct v as [|a [|b v]]; auto.
Qed.

Lemma window_loop_not_TypeError x wininc idxs st en feat :
  is_TypeError (window_loop x wininc idxs st en feat) = false.
Proof.
  revert st en feat; induction idxs as [|i idxs IH]; intros; simpl; auto.
  pose proof (setitem_row_not_TypeError feat i
                (window_features (getrows x st en))) as H.
  destruct (setitem_row feat i _) as [feat'|[]]; simpl in *;
    auto; discriminate.
Qed.

(** C5.  With fewer than two sliding parameters the call raises the
    argument-count error [TypeError]; with two or more it raises no
    argument-count error. *)
Theorem argument_count_check x slidingParams :
  (length slidingParams < 2 ->
   getTDPSDfeatv3 x slidingParams = Raise (TypeError (length slidingParams)))
  /\
  (2 <= length slidingParams ->
   is_TypeError (getTDPSDfeatv3 x slidingParams) = false).
Proof.
  unfold getTDPSDfeatv3; split; intros H.
  - apply Nat.ltb_lt in H. now rewrite H.
  - apply Nat.ltb_ge in H. rewrite H.
    destruct (line59_numwin _ _) as [numwin|e] eqn:E; simpl.
    + unfold np_zeros. destruct (_ <? 0)%Z; simpl; auto.
      apply window_loop_not_TypeError.
    + unfold line59_numwin in E.
      destruct (_ =? 0)%Z; [now inversion E|].
      destruct (exact_quotient _ _); [discriminate|].
      destruct (count_inexact _ _); [discriminate | now inversion E].
Qed.

End Arguments_check.

(** ** The moments, channel by channel *)

Section Moments.
Context {F : Type} {FO : Float64 F}.

Implicit Types (S M : ndarray F) (rows : list (list F)).

Lemma flatten_newaxis (v : list F) : flatten (newaxis v) = v.
Proof.
  unfold flatten, newaxis; simpl.
  induction v as [|a v IH]; simpl; auto. now rewrite IH.
Qed.

Lemma amap_newaxis f (v : list F) :
  data (amap f (newaxis v)) = data (newaxis (map f v)).
Proof.
  simpl. now rewrite !map_map.
Qed.

Lemma amap2_newaxis f (u v : list F) :
  data (amap2 f (newaxis u) (newaxis v)) = data (newaxis (map2 f u v)).
Proof.
  simpl. revert v; induction u as [|a u IH]; intros [|b v]; simpl; auto.
  now rewrite IH.
Qed.

Lemma flatten_data M N : data M = data N -> flatten M = flatten N.
Proof. unfold flatten; congruence. Qed.

Lemma sum_axis0_length M : wf M -> length (sum_axis0 M) = shape1 M.
Proof.
  intros _; unfold sum_axis0. now rewrite length_map, length_seq.
Qed.

Lemma sum_axis0_nth_error M j :
  j < shape1 M ->
  nth_error (sum_axis0 M) j
  = Some (sum_column (order M) (shape0 M) (shape1 M) j (channel j M)).
Proof.
  intros Hj; unfold sum_axis0.
  rewrite nth_error_map, nth_error_seq.
  apply Nat.ltb_lt in Hj. now rewrite Hj.
Qed.

Lemma channel_amap f M j :
  wf M -> j < shape1 M ->
  channel j (amap f M) = map f (channel j M).
Proof.
  intros [_ Hr] Hj; unfold channel; simpl.
  rewrite !map_map. apply map_ext_in. intros r Hin.
  rewrite Forall_forall in Hr. specialize (Hr _ Hin).
  rewrite (nth_indep _ fzero (f fzero)) by (rewrite length_map; lia).
  apply map_nth.
Qed.

Lemma diff_rows_length rows : length (diff_rows rows) = pred (length rows).
Proof.
  induction rows as [|r1 [|r2 rows] IH]; simpl in *; auto.
Qed.

Lemma diff_rows_all_length n rows :
  all_length n rows -> all_length n (diff_rows rows).
Proof.
  induction rows as [|r1 [|r2 rows] IH]; intros H; simpl; try constructor.
  - inversion H as [|? ? H1 H']; subst. inversion H'; subst.
    rewrite map2_length. lia.
  - apply IH. now inversion H.
Qed.

Lemma wf_diff M : wf M -> wf (diff_axis0 M).
Proof.
  intros [Hl Hr]; split; simpl.
  - now rewrite diff_rows_length, Hl.
  - now apply diff_rows_all_length.
Qed.

Lemma channel_diff M j :
  wf M -> j < shape1 M ->
  channel j (diff_axis0 M) = diff_signal (channel j M).
Proof.
  intros [_ Hr] Hj; unfold channel; simpl.
  induction (data M) as [|r1 [|r2 rows] IH]; simpl in *; auto.
  inversion Hr as [|? ? H1 Hr']; subst. inversion Hr'; subst.
  f_equal; [apply map2_nth; lia | now apply IH].
Qed.

Lemma diff_signal_length (s : list F) :
  length (diff_signal s) = pred (length s).
Proof.
  induction s as [|a [|b s] IH]; simpl in *; auto.
Qed.

Lemma channel_length M j : wf M -> length (channel j M) = shape0 M.
Proof.
  intros [Hl _]; unfold channel. now rewrite length_map.
Qed.

(** The column of moments computed from the array [D] of differences of the
    window [S], read at channel [j]. *)
Lemma moment_column S D j :
  wf D -> j < shape1 D ->
  nth_error
    (flatten (normalise (newaxis (map fsqrt
       (map (over_samples_minus_1 S) (sum_axis0 (amap fsqr D))))))) j
  = Some (moment (sum_column (order D) (shape0 D) (shape1 D) j
                             (squares (channel j D)))
                 (shape0 S)).
Proof.
  intros HD Hj.
  unfold normalise.
  rewrite (flatten_data _ _ (amap_newaxis _ _)), flatten_newaxis.
  rewrite !map_map.
  rewrite nth_error_map.
  rewrite sum_axis0_nth_error by exact Hj.
  cbn [option_map amap order shape0 shape1].
  now rewrite channel_amap.
Qed.

(** C3.  On the oriented window of [samples] rows, [m2] of a channel is
    [(sqrt (sum (d1 ** 2) / (samples - 1))) ** .1 / .1] with [d1] the first
    difference of the channel, and [m4] is the same formula on the second
    difference [d2] with the same divisor [samples - 1], although [d2] has
    [samples - 2] entries.  The sums are NumPy's, over the column of
    channel [j] in the arrays of the squared differences, of
    [samples - 1] and of [samples - 2] rows. *)
Theorem m2_m4_formula (W : ndarray F) (j : nat) :
  wf W ->
  let S := KSM1_orient W in
  let samples := shape0 S in
  let channels := shape1 S in
  j < channels ->
  let d1 := diff_signal (channel j S) in
  let d2 := diff_signal d1 in
  let sum1 :=
    sum_over_time (order S) (samples - 1) channels j (squares d1) in
  let sum2 :=
    sum_over_time (order S) (samples - 2) channels j (squares d2) in
  nth_error (flatten (KSM1_m2 S)) j = Some (moment sum1 samples) /\
  nth_error (flatten (KSM1_m4 S)) j = Some (moment sum2 samples) /\
  length d1 = samples - 1 /\
  length d2 = samples - 2.
Proof.
  intros HW S samples channels Hj d1 d2 sum1 sum2.
  assert (HS : wf S) by now apply wf_orient.
  assert (H1 : wf (KSM1_d1 S)) by now apply wf_diff.
  assert (H2 : wf (KSM1_d2 S)) by now apply wf_diff.
  repeat split.
  - unfold KSM1_m2. rewrite moment_column; auto.
    unfold KSM1_d1 at 4. rewrite channel_diff by auto.
    unfold sum1, samples, channels, d1; simpl.
    now rewrite Nat.sub_1_r.
  - unfold KSM1_m4. rewrite moment_column; auto.
    unfold KSM1_d2 at 4, KSM1_d1. rewrite !channel_diff by auto.
    unfold sum2, samples, channels, d2, d1; simpl.
    now replace (shape0 S - 2) with (pred (pred (shape0 S))) by lia.
  - unfold d1. rewrite diff_signal_length, channel_length by auto.
    unfold samples; lia.
  - unfold d2, d1. rewrite !diff_signal_length, channel_length by auto.
    unfold samples; lia.
Qed.

End Moments.

(** ** The order of the features *)

Section FeatureOrder.
Context {F : Type} {FO : Float64 F}.

Implicit Types (S M N : ndarray F) (rows : list (list F)).

Lemma is_column_newaxis (v : list F) : is_column (length v) (newaxis v).
Proof. now exists v. Qed.

Lemma is_column_amap n f M : is_column n M -> is_column n (amap f M).
Proof.
  intros (v & Hl & Hd). exists (map f v); split.
  - now rewrite length_map.
  - simpl. rewrite Hd. simpl. now rewrite !map_map.
Qed.

Lemma is_column_amap2 n f M N :
  is_column n M -> is_column n N -> is_column n (amap2 f M N).
Proof.
  intros (u & Hu & Hd) (v & Hv & Hd'). exists (map2 f u v); split.
  - rewrite map2_length. lia.
  - simpl. rewrite Hd, Hd'. apply (amap2_newaxis f u v).
Qed.

Lemma is_column_flatten n M : is_column n M -> length (flatten M) = n.
Proof.
  intros (v & Hl & Hd).
  now rewrite (flatten_data M (newaxis v) Hd), flatten_newaxis.
Qed.

Lemma is_column_moment n v :
  length v = n -> is_column n (normalise (newaxis (map fsqrt v))).
Proof.
  intros H. apply is_column_amap.
  replace n with (length (map fsqrt v)) by now rewrite length_map.
  apply is_column_newaxis.
Qed.

Section Columns.
Variable S : ndarray F.
Hypothesis HS : wf S.

Lemma m0_column : is_column (shape1 S) (KSM1_m0 S).
Proof.
  apply is_column_moment.
  exact (sum_axis0_length (wf_amap fsqr HS)).
Qed.

Lemma m2_column : is_column (shape1 S) (KSM1_m2 S).
Proof.
  apply is_column_moment. rewrite length_map.
  exact (sum_axis0_length (wf_amap fsqr (wf_diff HS))).
Qed.

Lemma m4_column : is_column (shape1 S) (KSM1_m4 S).
Proof.
  apply is_column_moment. rewrite length_map.
  exact (sum_axis0_length (wf_amap fsqr (wf_diff (wf_diff HS)))).
Qed.

Lemma sparsi_column : is_column (shape1 S) (KSM1_sparsi S).
Proof.
  unfold KSM1_sparsi, KSM1_sparsi_den.
  auto 10 using is_column_amap, is_column_amap2,
    m0_column, m2_column, m4_column.
Qed.

Lemma IRF_column : is_column (shape1 S) (KSM1_IRF S).
Proof.
  unfold KSM1_IRF, KSM1_IRF_den.
  auto 10 using is_column_amap, is_column_amap2,
    m0_column, m2_column, m4_column.
Qed.

Lemma WLR_column : is_column (shape1 S) (KSM1_WLR S).
Proof.
  unfold KSM1_WLR.
  set (a := sum_axis0 (amap fabs (KSM1_d1 S))).
  set (b := sum_axis0 (amap fabs (KSM1_d2 S))).
  assert (Ha : length a = shape1 S)
    by exact (sum_axis0_length (wf_amap fabs (wf_diff HS))).
  assert (Hb : length b = shape1 S)
    by exact (sum_axis0_length (wf_amap fabs (wf_diff (wf_diff HS)))).
  replace (shape1 S) with (length (map2 fsub a b))
    by (rewrite map2_length; lia).
  apply is_column_newaxis.
Qed.

Lemma wf_stacked : wf (stacked S).
Proof.
  split; [reflexivity|]. unfold stacked; simpl.
  repeat constructor; apply is_column_flatten;
    auto using is_column_amap2, m0_column, m2_column, m4_column,
      sparsi_column, IRF_column, WLR_column.
Qed.

End Columns.

Lemma flatten_amap_concatenate f (Ms : list (ndarray F)) :
  flatten (amap f (concatenate Ms))
  = concat (map (fun M => map f (flatten M)) Ms).
Proof.
  unfold flatten, amap, concatenate; cbn [data].
  induction Ms as [|M Ms IH]; cbn [map concat]; auto.
  now rewrite map_app, concat_app, IH, concat_map.
Qed.

Lemma KSM1_body_stacked S f :
  flatten (amap f
    (concatenate [KSM1_m0 S; amap2 fsub (KSM1_m0 S) (KSM1_m2 S);
                  amap2 fsub (KSM1_m0 S) (KSM1_m4 S);
                  KSM1_sparsi S; KSM1_IRF S; KSM1_WLR S]))
  = flatten (amap f (stacked S)).
Proof.
  rewrite flatten_amap_concatenate.
  unfold stacked, flatten, amap; cbn [data map concat].
  reflexivity.
Qed.

Lemma KSM1_body_length S : wf S -> length (KSM1_body S) = 6 * shape1 S.
Proof.
  intros HS. unfold KSM1_body. rewrite KSM1_body_stacked.
  destruct (wf_stacked HS) as [_ Hr].
  unfold flatten. simpl in *.
  repeat match goal with
         | H : Forall _ (_ :: _) |- _ => inversion H; subst; clear H
         end.
  rewrite !length_app, !length_map. simpl. lia.
Qed.

Lemma nth_error_concat rows c k j :
  all_length c rows -> j < c ->
  nth_error (concat rows) (k * c + j) = nth_error (nth k rows []) j.
Proof.
  intros H; revert k; induction H as [|r rows Hr _ IH]; intros k Hj.
  - destruct k; simpl; now rewrite ?nth_error_nil.
  - destruct k as [|k]; simpl.
    + apply nth_error_app1. lia.
    + rewrite nth_error_app2 by lia.
      replace (c + k * c + j - length r) with (k * c + j) by lia.
      now apply IH.
Qed.

(** C4.  [KSM1] stacks [m0], [m0 - m2], [m0 - m4], sparseness, irregularity
    factor and waveform length ratio, in this order, applies [log (abs _)] to
    every entry and returns the row-major flattening of the 6-by-channels
    structure: entry [k * channels + j] of the result is quantity [k] of
    channel [j]. *)
Theorem KSM1_feature_order (W : ndarray F) :
  wf W ->
  let S := KSM1_orient W in
  let logabs := fun v => flog (fabs v) in
  wf (stacked S) /\
  KSM1 W = flatten (amap logabs (stacked S)) /\
  length (KSM1 W) = 6 * shape1 S /\
  forall k j, j < shape1 S ->
    nth_error (KSM1 W) (k * shape1 S + j)
    = nth_error (map logabs (nth k (data (stacked S)) [])) j.
Proof.
  intros HW S logabs.
  assert (HS : wf S) by now apply wf_orient.
  assert (Hst : wf (stacked S)) by now apply wf_stacked.
  assert (Heq : KSM1 W = flatten (amap logabs (stacked S))).
  { unfold KSM1, KSM1_body. fold S. apply KSM1_body_stacked. }
  repeat split; try apply Hst; auto.
  - now apply KSM1_body_length.
  - intros k j Hj. rewrite Heq. unfold flatten.
    pose proof (wf_amap logabs Hst) as [_ Hr].
    change (shape1 (amap logabs (stacked S))) with (shape1 S) in Hr.
    rewrite (nth_error_concat k Hr Hj).
    unfold amap; cbn [data].
    now rewrite <- (map_nth (map logabs)).
Qed.

End FeatureOrder.

(** ** The windows *)

Section Windows.
Context {F : Type} {FO : Float64 F}.

Implicit Types (x feat W : ndarray F) (rows : list (list F)).

Lemma wf_getrows x st en : wf x -> wf (getrows x st en).
Proof.
  intros [Hl Hr]; unfold getrows; split; cbn [data shape0 shape1].
  - rewrite length_firstn, length_skipn, Hl.
    unfold py_bound.
    destruct (Z.ltb_spec st 0), (Z.ltb_spec en 0); lia.
  - now apply Forall_firstn_keeps, Forall_skipn_keeps.
Qed.

Lemma getrows_window x winsize wininc i :
  (0 < winsize)%Z -> (0 < wininc)%Z ->
  (Z.of_nat i * wininc + winsize <= Z.of_nat (shape0 x))%Z ->
  getrows x (0 + Z.of_nat i * wininc) (winsize + Z.of_nat i * wininc)
  = window x winsize wininc i.
Proof.
  intros Hs Hi Hle. unfold getrows, window.
  assert (Ha : py_bound (shape0 x) (0 + Z.of_nat i * wininc)
               = i * Z.to_nat wininc).
  { unfold py_bound.
    destruct (Z.ltb_spec (0 + Z.of_nat i * wininc) 0); nia. }
  assert (Hb : py_bound (shape0 x) (winsize + Z.of_nat i * wininc)
               = i * Z.to_nat wininc + Z.to_nat winsize).
  { unfold py_bound.
    destruct (Z.ltb_spec (winsize + Z.of_nat i * wininc) 0); nia. }
  rewrite Ha, Hb.
  replace (i * Z.to_nat wininc + Z.to_nat winsize - i * Z.to_nat wininc)
    with (Z.to_nat winsize) by lia.
  reflexivity.
Qed.

Lemma wf_window x winsize wininc i :
  wf x -> (0 < winsize)%Z -> (0 < wininc)%Z ->
  (Z.of_nat i * wininc + winsize <= Z.of_nat (shape0 x))%Z ->
  wf (window x winsize wininc i).
Proof.
  intros Hx Hs Hi Hle. rewrite <- getrows_window by assumption.
  now apply wf_getrows.
Qed.

Lemma line59_exact a b :
  b <> 0%Z -> exact_quotient a b = true ->
  line59_numwin a b = Ok (a / b + 1)%Z.
Proof.
  intros Hb He; unfold line59_numwin.
  apply Z.eqb_neq in Hb. now rewrite Hb, He.
Qed.

Lemma line59_positive a b :
  (0 <= a)%Z -> (0 < b)%Z -> line59_numwin a b = Ok (a / b + 1)%Z.
Proof.
  intros Ha Hb. apply line59_exact; [lia|].
  unfold exact_quotient.
  apply Z.leb_le in Ha. apply Z.ltb_lt in Hb. now rewrite Ha, Hb.
Qed.

Lemma window_features_contrast W :
  window_features W = map2 contrast (KSM1 (log_power W)) (KSM1 W).
Proof.
  unfold window_features. fold (log_power W).
  generalize (KSM1 (log_power W)) as u, (KSM1 W) as v.
  induction u as [|a u IH]; intros [|b v]; cbn [map2 map]; auto.
  now rewrite IH.
Qed.

Lemma KSM1_length W : wf W -> length (KSM1 W) = 6 * shape1 (KSM1_orient W).
Proof.
  intros HW. apply KSM1_body_length. now apply wf_orient.
Qed.

Lemma window_features_length W :
  wf W -> length (window_features W) = 6 * shape1 (KSM1_orient W).
Proof.
  intros HW. rewrite window_features_contrast, map2_length.
  rewrite (KSM1_length HW).
  rewrite (KSM1_length (wf_amap _ HW : wf (log_power W))).
  unfold log_power, KSM1_orient; cbn [amap shape0 shape1].
  destruct (shape0 W <? shape1 W); unfold transpose, amap;
    cbn [shape0 shape1]; lia.
Qed.

(** The loop fills rows [length done], ..., [length done + k - 1] of [feat]
    with the features of the next [k] windows, provided each row of features
    has the row length of [feat]. *)
Lemma window_loop_fill x wininc k :
  forall done rest st en r c,
    k <= length rest ->
    r = length done + length rest ->
    (forall j, j < k ->
       length (window_features
                 (getrows x (st + Z.of_nat j * wininc)
                            (en + Z.of_nat j * wininc))) = c) ->
    window_loop x wininc (seq (length done) k) st en (mkarr r c (done ++ rest))
    = Ok (mkarr r c
            (done
             ++ map (fun j => window_features
                       (getrows x (st + Z.of_nat j * wininc)
                                  (en + Z.of_nat j * wininc)))
                    (seq 0 k)
             ++ skipn k rest)).
Proof.
  induction k as [|k IH]; intros done rest st en r c Hk Hr Hlen.
  - reflexivity.
  - destruct rest as [|r0 rest]; [simpl in Hk; lia|].
    cbn [seq window_loop].
    assert (H0 : length (window_features (getrows x st en)) = c).
    { specialize (Hlen 0 (Nat.lt_0_succ k)).
      now rewrite !Z.add_0_r in Hlen. }
    unfold setitem_row; cbn [order shape0 shape1 data].
    replace (r <=? length done) with false
      by (symmetry; apply Nat.leb_gt; simpl in Hr; lia).
    rewrite H0, Nat.eqb_refl. cbn [rbind].
    rewrite set_nth_app_mid.
    replace (done ++ window_features (getrows x st en) :: rest)
      with ((done ++ [window_features (getrows x st en)]) ++ rest)
      by now rewrite <- app_assoc.
    replace (S (length done))
      with (length (done ++ [window_features (getrows x st en)]))
      by (rewrite length_app; simpl; lia).
    rewrite IH.
    + f_equal. f_equal. rewrite <- app_assoc. f_equal.
      cbn [app seq map skipn]. rewrite !Z.add_0_r. f_equal. f_equal.
      rewrite <- seq_shift, map_map. apply map_ext. intros j.
      f_equal. f_equal; lia.
    + simpl in Hk; lia.
    + rewrite length_app; simpl in *; lia.
    + intros j Hj. specialize (Hlen (S j) ltac:(lia)).
      replace (st + wininc + Z.of_nat j * wininc)%Z
        with (st + Z.of_nat (S j) * wininc)%Z by lia.
      replace (en + wininc + Z.of_nat j * wininc)%Z
        with (en + Z.of_nat (S j) * wininc)%Z by lia.
      exact Hlen.
Qed.

(** What the call returns on a signal of at least [winsize] rows whose
    windows have no more channels than samples. *)
Lemma getTDPSDfeatv3_windows x winsize wininc extra :
  wf x ->
  (0 < winsize <= Z.of_nat (shape0 x))%Z ->
  (0 < wininc)%Z ->
  (Z.of_nat (shape1 x) <= winsize)%Z ->
  let numwin := Z.to_nat (window_count x winsize wininc) in
  getTDPSDfeatv3 x (winsize :: wininc :: extra)
  = Ok (mkarr numwin (shape1 x * 6)
          (map (fun i => window_features (window x winsize wininc i))
               (seq 0 numwin))).
Proof.
  intros Hx Hs Hi Hc numwin.
  unfold getTDPSDfeatv3. cbn [length Nat.ltb Nat.leb nth].
  rewrite line59_positive by lia. cbn [rbind].
  fold (window_count x winsize wininc).
  assert (Hq : (0 <= (Z.of_nat (shape0 x) - winsize) / wininc)%Z)
    by (apply Z.div_pos; lia).
  assert (Hn : (0 < window_count x winsize wininc)%Z)
    by (unfold window_count; lia).
  unfold np_zeros.
  replace (window_count x winsize wininc <? 0)%Z with false
    by (symmetry; apply Z.ltb_ge; lia).
  cbn [rbind]. fold numwin. unfold NFPC.
  assert (Hin : forall j, j < numwin ->
            (Z.of_nat j * wininc + winsize <= Z.of_nat (shape0 x))%Z).
  { intros j Hj. unfold numwin, window_count in Hj.
    pose proof (Z.mul_div_le (Z.of_nat (shape0 x) - winsize) wininc Hi).
    nia. }
  pose proof (@window_loop_fill x wininc numwin []
                (repeat (repeat fzero (shape1 x * 6)) numwin)
                0%Z winsize numwin (shape1 x * 6)) as Hloop.
  cbn [app length] in Hloop. rewrite Hloop; clear Hloop.
  - f_equal. f_equal.
    rewrite skipn_all2 by (rewrite repeat_length; lia).
    rewrite app_nil_r. apply map_ext_in. intros j Hj.
    apply in_seq in Hj. f_equal.
    apply getrows_window; try apply Hin; lia.
  - rewrite repeat_length; lia.
  - rewrite repeat_length; lia.
  - intros j Hj. specialize (Hin j Hj).
    rewrite getrows_window by lia.
    rewrite window_features_length by (apply wf_window; auto; lia).
    rewrite orient_tall; cbn [window shape0 shape1]; lia.
Qed.

(** A window with fewer samples than channels is transposed by [KSM1]; its
    features then have [6 * winsize] entries, which do not fit a row of
    [feat], and the first assignment raises. *)
Lemma narrow_window_raises x winsize wininc extra :
  wf x ->
  (0 < winsize <= Z.of_nat (shape0 x))%Z ->
  (0 < wininc)%Z ->
  (winsize < Z.of_nat (shape1 x))%Z ->
  getTDPSDfeatv3 x (winsize :: wininc :: extra)
  = Raise (ValueErrorBroadcast (6 * Z.to_nat winsize) (shape1 x * 6)).
Proof.
  intros Hx Hs Hi Hc.
  unfold getTDPSDfeatv3. cbn [length Nat.ltb Nat.leb nth].
  rewrite line59_positive by lia. cbn [rbind].
  fold (window_count x winsize wininc).
  assert (Hq : (0 <= (Z.of_nat (shape0 x) - winsize) / wininc)%Z)
    by (apply Z.div_pos; lia).
  assert (Hn : (0 < window_count x winsize wininc)%Z)
    by (unfold window_count; lia).
  unfold np_zeros.
  replace (window_count x winsize wininc <? 0)%Z with false
    by (symmetry; apply Z.ltb_ge; lia).
  cbn [rbind]. unfold NFPC.
  destruct (Z.to_nat (window_count x winsize wininc)) as [|n] eqn:En;
    [lia|].
  cbn [seq window_loop].
  pose proof (@getrows_window x winsize wininc 0 ltac:(lia) Hi ltac:(lia))
    as Hw.
  cbn [Z.of_nat] in Hw. rewrite !Z.mul_0_l, !Z.add_0_r in Hw.
  rewrite Hw.
  assert (HW : wf (window x winsize wininc 0))
    by (apply wf_window; auto; lia).
  pose proof (window_features_length HW) as Hlen.
  rewrite orient_wide in Hlen by (cbn [window shape0 shape1]; lia).
  cbn [transpose window shape0 shape1] in Hlen.
  unfold setitem_row; cbn [order shape0 shape1 data Nat.leb].
  rewrite Hlen.
  replace (6 * Z.to_nat winsize =? shape1 x * 6) with false
    by (symmetry; apply Nat.eqb_neq; lia).
  destruct (window_features (window x winsize wininc 0)) as [|a [|b v]];
    cbn [length] in Hlen; try lia.
  reflexivity.
Qed.

(** C1, amended.  On a signal of at least [winsize] rows, with positive
    [winsize] and [wininc] and no more channels than [winsize], row [i] of
    the output, for every window index [i] below the window count, is the
    elementwise [-2 * efp * ebp - (efp ** 2 + ebp ** 2)], where
    [ebp = KSM1 curwin], [efp = KSM1 (log (curwin ** 2 + eps))] and [curwin]
    is rows [i * wininc, i * wininc + winsize) of [x].  For the one-channel
    signal 1, 2, 3, 4, 5, 6 with [winsize = 4] and [wininc = 2], row 0 comes
    from the samples 1, 2, 3, 4 and row 1 from 3, 4, 5, 6. *)
Theorem window_rows_and_contrast :
  (forall x winsize wininc extra,
     wf x ->
     (0 < winsize <= Z.of_nat (shape0 x))%Z ->
     (0 < wininc)%Z ->
     (Z.of_nat (shape1 x) <= winsize)%Z ->
     exists feat,
       getTDPSDfeatv3 x (winsize :: wininc :: extra) = Ok feat /\
       forall i, (Z.of_nat i < window_count x winsize wininc)%Z ->
         let curwin := window x winsize wininc i in
         let ebp := KSM1 curwin in
         let efp := KSM1 (log_power curwin) in
         nth_error (data feat) i = Some (map2 contrast efp ebp))
  /\
  (let signal := fun zs : list Z =>
                   mkarr (length zs) 1 (map (fun z => [fint z]) zs) in
   let row := fun zs =>
                map2 contrast (KSM1 (log_power (signal zs)))
                              (KSM1 (signal zs)) in
   getTDPSDfeatv3 (signal [1; 2; 3; 4; 5; 6]%Z) [4; 2]%Z
   = Ok (mkarr 2 6 [row [1; 2; 3; 4]%Z; row [3; 4; 5; 6]%Z])).
Proof.
  split.
  - intros x winsize wininc extra Hx Hs Hi Hc.
    rewrite getTDPSDfeatv3_windows by assumption.
    eexists; split; [reflexivity|].
    intros i Hlt curwin ebp efp. cbn [data].
    rewrite nth_error_map.
    rewrite (nth_error_nth' _ 0) by (rewrite length_seq; lia).
    rewrite seq_nth by lia.
    cbn [option_map Nat.add]. f_equal. apply window_features_contrast.
  - cbv beta zeta. rewrite <- 2 window_features_contrast. reflexivity.
Qed.

(** C2, amended.  On a signal of at least [winsize] rows, with positive
    [winsize] and [wininc] and no more channels than [winsize], the output
    has [floor ((rows - winsize) / wininc) + 1] rows and [channels * 6]
    columns. *)
Theorem output_shape x winsize wininc extra :
  wf x ->
  (0 < winsize <= Z.of_nat (shape0 x))%Z ->
  (0 < wininc)%Z ->
  (Z.of_nat (shape1 x) <= winsize)%Z ->
  exists feat,
    getTDPSDfeatv3 x (winsize :: wininc :: extra) = Ok feat /\
    wf feat /\
    Z.of_nat (shape0 feat)
    = ((Z.of_nat (shape0 x) - winsize) / wininc + 1)%Z /\
    shape1 feat = shape1 x * 6.
Proof.
  intros Hx Hs Hi Hc.
  rewrite getTDPSDfeatv3_windows by assumption.
  eexists; split; [reflexivity|].
  assert (Hq : (0 <= (Z.of_nat (shape0 x) - winsize) / wininc)%Z)
    by (apply Z.div_pos; lia).
  cbn [shape0 shape1]. repeat split.
  - cbn [data]. now rewrite length_map, length_seq.
  - cbn [data]. apply Forall_map, Forall_forall. intros i Hin.
    apply in_seq in Hin.
    assert (Hle : (Z.of_nat i * wininc + winsize
                   <= Z.of_nat (shape0 x))%Z).
    { unfold window_count in Hin.
      pose proof (Z.mul_div_le (Z.of_nat (shape0 x) - winsize) wininc Hi).
      nia. }
    rewrite window_features_length by (apply wf_window; auto; lia).
    rewrite orient_tall; cbn [window shape0 shape1]; lia.
  - unfold window_count; lia.
Qed.

(** C8, amended.  With [wininc] other than zero, the window count of line
    59 is [floor ((datasize - winsize) / wininc) + 1] whenever the binary64
    quotient has the floor of the exact one, in particular for
    [datasize - winsize] and [wininc] of magnitude below 2^53.  When the
    count that line 59 computes is zero the call returns a feature matrix
    with no rows; when it is negative the allocation of the feature matrix
    raises [ValueError]. *)
Theorem degenerate_window_count x winsize wininc extra :
  (wininc <> 0)%Z ->
  let numwin := line59_numwin (Z.of_nat (shape0 x) - winsize) wininc in
  ((Z.abs (Z.of_nat (shape0 x) - winsize) < 2 ^ 53)%Z ->
   (Z.abs wininc < 2 ^ 53)%Z ->
   numwin = Ok (window_count x winsize wininc)) /\
  (numwin = Ok 0%Z ->
   getTDPSDfeatv3 x (winsize :: wininc :: extra)
   = Ok (mkarr 0 (shape1 x * 6) [])) /\
  (forall n, numwin = Ok n -> (n < 0)%Z ->
   getTDPSDfeatv3 x (winsize :: wininc :: extra)
   = Raise ValueErrorNegativeDim).
Proof.
  intros Hi numwin.
  unfold getTDPSDfeatv3. cbn [length Nat.ltb Nat.leb nth].
  fold numwin.
  repeat split.
  - intros Ha Hb. unfold numwin, window_count.
    apply line59_exact; [assumption|].
    unfold exact_quotient.
    apply Z.ltb_lt in Ha, Hb. rewrite Ha, Hb. apply orb_true_r.
  - intros H. rewrite H. reflexivity.
  - intros n H Hn. rewrite H. cbn [rbind]. unfold np_zeros.
    apply Z.ltb_lt in Hn. now rewrite Hn.
Qed.

End Windows.

(** ** The store: what the call writes *)

Section StoreFacts.
Context {F : Type} {FO : Float64 F}.

Implicit Types (h : heap F) (X feat : ndarray F).

Lemma nth_error_here {A} (l1 : list A) a l2 :
  nth_error (l1 ++ a :: l2) (length l1) = Some a.
Proof.
  rewrite nth_error_app2 by lia. now rewrite Nat.sub_diag.
Qed.

Lemma load_copy h X feat :
  load (length h) (h ++ [X; feat]) = (Ok X, h ++ [X; feat]).
Proof.
  unfold load. now rewrite nth_error_here.
Qed.

Lemma load_feat h X feat :
  load (S (length h)) (h ++ [X; feat]) = (Ok feat, h ++ [X; feat]).
Proof.
  unfold load.
  replace (h ++ [X; feat]) with ((h ++ [X]) ++ [feat])
    by now rewrite <- app_assoc.
  replace (S (length h)) with (length (h ++ [X]))
    by (rewrite length_app; simpl; lia).
  now rewrite nth_error_here.
Qed.

Lemma store_feat h X feat feat' :
  store (S (length h)) feat' (h ++ [X; feat]) = (Ok tt, h ++ [X; feat']).
Proof.
  unfold store.
  replace (S (length h) <? length (h ++ [X; feat])) with true
    by (symmetry; apply Nat.ltb_lt; rewrite length_app; simpl; lia).
  f_equal.
  replace (h ++ [X; feat]) with ((h ++ [X]) ++ [feat])
    by now rewrite <- app_assoc.
  replace (S (length h)) with (length (h ++ [X]))
    by (rewrite length_app; simpl; lia).
  now rewrite set_nth_app_mid, <- app_assoc.
Qed.

(** The loop on the store, with the copy of [x] at address [length h] and
    [feat] at the next address, performs the loop of the pure model on
    [feat] and touches nothing else. *)
Lemma window_loop_heap_run h X wininc idxs :
  forall st en feat,
  exists r feat',
    window_loop_heap (length h) wininc idxs st en (S (length h))
                     (h ++ [X; feat])
    = (r, h ++ [X; feat']) /\
    match window_loop X wininc idxs st en feat with
    | Ok f => r = Ok tt /\ feat' = f
    | Raise e => r = Raise e
    end.
Proof.
  induction idxs as [|i idxs IH]; intros st en feat.
  - exists (Ok tt), feat. now split.
  - cbn [window_loop_heap window_loop].
    unfold bind at 1. unfold read_rows, bind at 1.
    rewrite load_copy. unfold ret.
    unfold bind at 1. unfold setitem_row_at, bind at 1.
    rewrite load_feat. unfold bind at 1, lift.
    destruct (setitem_row feat i _) as [feat1|e]; cbn [rbind].
    + rewrite store_feat. apply IH.
    + exists (Raise e), feat. now split.
Qed.

(** The call on the store: the result is the result of the pure model on the
    contents of [x], and the store grows by the objects the call allocated. *)
Lemma getTDPSDfeatv3_heap_run h xl X slidingParams :
  nth_error h xl = Some X ->
  exists r tail,
    getTDPSDfeatv3_heap xl slidingParams h = (r, h ++ tail) /\
    match getTDPSDfeatv3 X slidingParams with
    | Ok feat => exists fl, r = Ok fl /\ nth_error (h ++ tail) fl = Some feat
    | Raise e => r = Raise e
    end.
Proof.
  intros Hx.
  unfold getTDPSDfeatv3_heap, getTDPSDfeatv3.
  unfold bind at 1. unfold np_array, bind at 1, load. rewrite Hx.
  unfold alloc.
  destruct (length slidingParams <? 2).
  { exists (Raise (TypeError (length slidingParams))), [X]. now split. }
  unfold bind at 1, load. rewrite nth_error_here.
  unfold bind at 1, lift.
  destruct (line59_numwin _ _) as [numwin|e]; cbn [rbind].
  2:{ exists (Raise e), [X]. now split. }
  unfold bind at 1.
  destruct (np_zeros _ _) as [feat|e]; cbn [rbind].
  2:{ exists (Raise e), [X]. now split. }
  unfold bind at 1, alloc.
  replace (length (h ++ [X])) with (S (length h))
    by (rewrite length_app; simpl; lia).
  rewrite <- app_assoc. cbn [app].
  unfold bind at 1.
  match goal with
  | |- context [window_loop_heap _ ?w ?ix ?st ?en _ _] =>
      destruct (window_loop_heap_run h X w ix st en feat)
        as (r & feat' & Hrun & Hres)
  end.
  rewrite Hrun.
  destruct (window_loop X _ _ _ _ feat) as [f|e].
  - destruct Hres as [-> ->]. unfold ret.
    exists (Ok (S (length h))), [X; f]. split; [reflexivity|].
    exists (S (length h)). split; [reflexivity|].
    replace (h ++ [X; f]) with ((h ++ [X]) ++ [f])
      by now rewrite <- app_assoc.
    replace (S (length h)) with (length (h ++ [X]))
      by (rewrite length_app; simpl; lia).
    apply nth_error_here.
  - subst r. exists (Raise e), [X; feat']. now split.
Qed.

Lemma getTDPSDfeatv3_heap_grows h xl slidingParams :
  exists tail, snd (getTDPSDfeatv3_heap xl slidingParams h) = h ++ tail.
Proof.
  destruct (nth_error h xl) as [X|] eqn:Hx.
  - destruct (getTDPSDfeatv3_heap_run h xl slidingParams Hx)
      as (r & tail & Hrun & _).
    exists tail. now rewrite Hrun.
  - exists []. rewrite app_nil_r.
    unfold getTDPSDfeatv3_heap, bind at 1. unfold np_array, bind at 1, load.
    now rewrite Hx.
Qed.

Lemma getTDPSDfeatv3_heap_frame h xl slidingParams l X :
  nth_error h l = Some X ->
  nth_error (snd (getTDPSDfeatv3_heap xl slidingParams h)) l = Some X.
Proof.
  intros Hl.
  destruct (getTDPSDfeatv3_heap_grows h xl slidingParams) as [tail ->].
  rewrite nth_error_app1; [assumption|].
  apply nth_error_Some. congruence.
Qed.

(** C9.  The call does not change the caller's signal matrix: after the
    call, and after a second call on the same object, the object at the
    caller's address holds what it held before, and so does every other
    object that existed before the call.  Both calls return what the pure
    model returns on the contents of the matrix. *)
Theorem caller_matrix_unchanged h xl X slidingParams :
  nth_error h xl = Some X ->
  let run1 := getTDPSDfeatv3_heap xl slidingParams h in
  let run2 := getTDPSDfeatv3_heap xl slidingParams (snd run1) in
  nth_error (snd run1) xl = Some X /\
  nth_error (snd run2) xl = Some X /\
  (forall l A, nth_error h l = Some A ->
     nth_error (snd run1) l = Some A /\ nth_error (snd run2) l = Some A) /\
  match getTDPSDfeatv3 X slidingParams with
  | Ok feat =>
      exists fl1 fl2,
        fst run1 = Ok fl1 /\ nth_error (snd run1) fl1 = Some feat /\
        fst run2 = Ok fl2 /\ nth_error (snd run2) fl2 = Some feat
  | Raise e => fst run1 = Raise e /\ fst run2 = Raise e
  end.
Proof.
  intros Hx run1 run2.
  assert (H1 : forall l A, nth_error h l = Some A ->
                 nth_error (snd run1) l = Some A)
    by (intros; now apply getTDPSDfeatv3_heap_frame).
  assert (H2 : forall l A, nth_error h l = Some A ->
                 nth_error (snd run2) l = Some A)
    by (intros; now apply getTDPSDfeatv3_heap_frame, H1).
  repeat split; auto.
  destruct (getTDPSDfeatv3_heap_run h xl slidingParams Hx)
    as (r1 & t1 & Hr1 & Hres1).
  destruct (getTDPSDfeatv3_heap_run (snd run1) xl slidingParams (H1 _ _ Hx))
    as (r2 & t2 & Hr2 & Hres2).
  fold run1 in Hr1. fold run2 in Hr2.
  destruct (getTDPSDfeatv3 X slidingParams) as [feat|e].
  - destruct Hres1 as (fl1 & -> & Hf1). destruct Hres2 as (fl2 & -> & Hf2).
    exists fl1, fl2. rewrite Hr2. cbn [fst snd]. rewrite Hr1 in *.
    cbn [fst snd] in *. auto.
  - subst. now rewrite Hr1, Hr2.
Qed.

End StoreFacts.

(** ** Sign invariance

    IEEE subtraction gives [+0] for [a - a] and for [(-a) - (-a)] alike, so
    the difference of a negated signal is not always the negated difference.
    The laws are therefore stated for a relation [anti a b], read "[b] is
    [a] with the sign flipped, or both are zero": negation relates a value
    to its negative, subtraction preserves the relation, and squares and
    absolute values of related values are equal.  On the reals [anti a b] is
    [b = - a]. *)

Section SignInvariance.
Context {F : Type} {FO : Float64 F}.

Variable anti : F -> F -> Prop.
Hypothesis anti_neg : forall a, anti a (fneg a).
Hypothesis anti_sub :
  forall a a' b b', anti a a' -> anti b b' -> anti (fsub a b) (fsub a' b').
Hypothesis anti_sqr : forall a a', anti a a' -> fsqr a = fsqr a'.
Hypothesis anti_abs : forall a a', anti a a' -> fabs a = fabs a'.

Implicit Types (S M N x : ndarray F) (rows : list (list F)).

Lemma related_neg M : related anti M (amap fneg M).
Proof.
  repeat split. cbn [amap data].
  induction (data M) as [|r rows IH]; cbn [map]; constructor; auto.
  clear IH. induction r; cbn [map]; constructor; auto.
Qed.

Lemma related_map_eq f M N :
  (forall a a', anti a a' -> f a = f a') ->
  related anti M N -> amap f M = amap f N.
Proof.
  intros Hf (Ho & H0 & H1 & Hd). unfold amap. rewrite Ho, H0, H1. f_equal.
  induction Hd as [|r r' rows rows' Hr _ IH]; cbn [map]; f_equal; auto.
  induction Hr; cbn [map]; f_equal; auto.
Qed.

Lemma related_diff M N :
  related anti M N -> related anti (diff_axis0 M) (diff_axis0 N).
Proof.
  intros (Ho & H0 & H1 & Hd). unfold diff_axis0.
  repeat split; cbn [order shape0 shape1 data]; try congruence.
  induction Hd as [|r r' rows rows' Hr Hd IH]; cbn [diff_rows];
    [constructor|].
  destruct Hd as [|r2 r2' rows rows' Hr2 Hd]; [constructor|].
  constructor; [|exact IH].
  clear - Hr Hr2 anti_sub. revert r r' Hr.
  induction Hr2; intros r r' Hr; destruct Hr; cbn [map2]; constructor; auto.
Qed.

Lemma KSM1_body_related M N :
  related anti M N -> KSM1_body M = KSM1_body N.
Proof.
  intros H.
  pose proof (related_diff H) as H1.
  pose proof (related_diff H1) as H2.
  assert (Hm0 : KSM1_m0 M = KSM1_m0 N).
  { unfold KSM1_m0. now rewrite (related_map_eq fsqr anti_sqr H). }
  assert (Hdiv : over_samples_minus_1 M = over_samples_minus_1 N).
  { unfold over_samples_minus_1. destruct H as (_ & -> & _). reflexivity. }
  assert (Hm2 : KSM1_m2 M = KSM1_m2 N).
  { unfold KSM1_m2, KSM1_d1.
    now rewrite (related_map_eq fsqr anti_sqr H1), Hdiv. }
  assert (Hm4 : KSM1_m4 M = KSM1_m4 N).
  { unfold KSM1_m4, KSM1_d2, KSM1_d1.
    now rewrite (related_map_eq fsqr anti_sqr H2), Hdiv. }
  assert (HW : KSM1_WLR M = KSM1_WLR N).
  { unfold KSM1_WLR, KSM1_d2, KSM1_d1.
    now rewrite (related_map_eq fabs anti_abs H1),
                (related_map_eq fabs anti_abs H2). }
  unfold KSM1_body, KSM1_sparsi, KSM1_sparsi_den, KSM1_IRF, KSM1_IRF_den.
  now rewrite Hm0, Hm2, Hm4, HW.
Qed.

Lemma columns_map (f : F -> F) n rows :
  columns n (map (map f) rows) = map (map f) (columns n rows).
Proof.
  revert rows; induction n as [|n IH]; intros rows; cbn [columns map]; auto.
  f_equal.
  - induction rows as [|r rows IHr]; cbn [flat_map map]; auto.
    rewrite map_app, IHr. f_equal. now destruct r.
  - rewrite <- IH. f_equal. rewrite !map_map. apply map_ext.
    intros r; now destruct r.
Qed.

Lemma orient_amap f S : KSM1_orient (amap f S) = amap f (KSM1_orient S).
Proof.
  unfold KSM1_orient. cbn [amap shape0 shape1].
  destruct (shape0 S <? shape1 S); auto.
  unfold transpose, amap; cbn [shape0 shape1 data].
  now rewrite columns_map.
Qed.

Lemma KSM1_neg S : KSM1 (amap fneg S) = KSM1 S.
Proof.
  unfold KSM1. rewrite orient_amap. symmetry.
  apply KSM1_body_related, related_neg.
Qed.

Lemma getrows_amap f x st en :
  getrows (amap f x) st en = amap f (getrows x st en).
Proof.
  unfold getrows, amap; cbn [shape0 shape1 data].
  now rewrite skipn_map, firstn_map.
Qed.

Lemma log_power_neg S : log_power (amap fneg S) = log_power S.
Proof.
  unfold log_power, amap; cbn [shape0 shape1 data]. f_equal.
  rewrite map_map. apply map_ext. intros r.
  rewrite map_map. apply map_ext. intros a.
  now rewrite <- (anti_sqr (anti_neg a)).
Qed.

Lemma window_features_neg S :
  window_features (amap fneg S) = window_features S.
Proof.
  rewrite !window_features_contrast.
  now rewrite log_power_neg, KSM1_neg.
Qed.

Lemma window_loop_neg x wininc idxs :
  forall st en feat,
    window_loop (amap fneg x) wininc idxs st en feat
    = window_loop x wininc idxs st en feat.
Proof.
  induction idxs as [|i idxs IH]; intros st en feat; cbn [window_loop]; auto.
  rewrite getrows_amap, window_features_neg.
  destruct (setitem_row feat i _); cbn [rbind]; auto.
Qed.

Lemma getTDPSDfeatv3_neg x slidingParams :
  getTDPSDfeatv3 (amap fneg x) slidingParams
  = getTDPSDfeatv3 x slidingParams.
Proof.
  unfold getTDPSDfeatv3. cbn [amap shape0 shape1].
  destruct (length slidingParams <? 2); auto.
  destruct (line59_numwin _ _); cbn [rbind]; auto.
  destruct (np_zeros _ _); cbn [rbind]; auto.
  apply window_loop_neg.
Qed.

(** Over any scalars with such a relation, [KSM1] returns the same
    features on [-S] as on [S], and [getTDPSDfeatv3] the same result on [-x]
    as on [x]. *)
Theorem sign_invariance :
  (forall S, KSM1 (amap fneg S) = KSM1 S) /\
  (forall x slidingParams,
     getTDPSDfeatv3 (amap fneg x) slidingParams
     = getTDPSDfeatv3 x slidingParams).
Proof.
  split.
  - intros S. unfold KSM1. rewrite orient_amap. symmetry.
    apply KSM1_body_related, related_neg.
  - intros x slidingParams. apply getTDPSDfeatv3_neg.
Qed.

End SignInvariance.

(** ** Constant windows

    The laws of zero used here hold for IEEE [+0.0]: [c - c = 0] for a
    finite [c], and [0 - 0], [0 * 0], [abs 0], [sqrt 0], [0 ** .1],
    [0 / .1], [0 / n] for a positive integer [n] and a sum of zeros, in
    whatever association, are all [0]. *)

Section ConstantWindows.
Context {F : Type} {FO : Float64 F}.

Hypothesis sub_zero : fsub fzero fzero = fzero.
Hypothesis sqr_zero : fmul fzero fzero = fzero.
Hypothesis sum_zero :
  forall o rows cols j k, add_reduce o rows cols j (repeat fzero k) = fzero.
Hypothesis abs_zero : fabs fzero = fzero.
Hypothesis sqrt_zero : fsqrt fzero = fzero.
Hypothesis pow_zero : fpow fzero point1 = fzero.
Hypothesis div_zero_point1 : fdiv fzero point1 = fzero.
Hypothesis div_zero_int :
  forall n, (0 < n)%Z -> fdiv fzero (fint n) = fzero.

Implicit Types (S M : ndarray F) (rows : list (list F)) (row v : list F).













Section OneWindow.
Variable row : list F.
Variable samples : nat.
Hypothesis two_samples : 2 <= samples.
Hypothesis tall : length row <= samples.
Hypothesis finite_row : Forall (fun c => fsub c c = fzero) row.

Local Abbreviation S := (constant_window row samples).
Local Abbreviation channels := (length row).
Local Abbreviation zeros := (repeat fzero (length row)).















End OneWindow.

End ConstantWindows.

(** ** Binary64 arithmetic

    What the machine numbers say about the constants and the laws used
    above. *)

(** [np.spacing (1)] is 2^-52, the gap between 1.0 and the next number; the
    smallest positive number, 2^-1074, is far below it. *)
Lemma spacing_of_one :
  np_spacing 1%float = 0x1p-52%float /\
  PrimFloat.ltb 0%float 0x1p-1074%float = true /\
  PrimFloat.ltb 0x1p-1074%float (np_spacing 1%float) = true.
Proof. repeat split; vm_compute; reflexivity. Qed.

(** Rounding does not look at the sign: flipping the sign of the operand
    flips the sign of the rounded result. *)
Lemma binary_round_aux_negb s m e l :
  binary_round_aux prec emax (negb s) m e l
  = SFopp (binary_round_aux prec emax s m e l).
Proof.
  unfold binary_round_aux.
  destruct (shr_fexp prec emax m e l) as [mrs' e'].
  destruct (shr_fexp prec emax _ e' loc_Exact) as [mrs'' e''].
  destruct (shr_m mrs'') as [|p|p]; cbn [SFopp]; auto.
  destruct (e'' <=? emax - prec)%Z; reflexivity.
Qed.

Lemma binary_round_negb s m e :
  binary_round prec emax (negb s) m e = SFopp (binary_round prec emax s m e).
Proof.
  unfold binary_round. destruct (shl_align _ _ _) as [mz ez].
  apply binary_round_aux_negb.
Qed.

Lemma binary_normalize_opp m e :
  SFanti (binary_normalize prec emax m e false)
         (binary_normalize prec emax (- m) e false).
Proof.
  destruct m as [|p|p]; cbn [Z.opp binary_normalize].
  - right. split; reflexivity.
  - left. apply (binary_round_negb false).
  - left. apply (binary_round_negb true).
Qed.

Ltac zero_signs :=
  cbn; (left; reflexivity) || (right; split; reflexivity).

(** Subtraction preserves the sign-flip relation.  The exact difference of
    the flipped operands is the negated difference; where it is zero both
    results are [+0]. *)
Lemma SFsub_anti x x' y y' :
  SFanti x x' -> SFanti y y' -> SFanti (SF64sub x y) (SF64sub x' y').
Proof.
  unfold SF64sub.
  intros [-> | [Hx Hx']] [-> | [Hy Hy']].
  - destruct x as [sx|sx| |sx mx ex], y as [sy|sy| |sy my ey];
      try (left; cbn; rewrite ?negb_involutive; reflexivity);
      try (destruct sx, sy; zero_signs).
    cbn [SFsub SFopp].
    match goal with
    | |- SFanti (binary_normalize _ _ ?a _ _) (binary_normalize _ _ ?b _ _) =>
        replace b with (- a)%Z
    end.
    + apply binary_normalize_opp.
    + destruct sx, sy; cbn [negb cond_Zopp]; lia.
  - destruct y as [sy|sy| |sy my ey]; try discriminate.
    destruct y' as [sy'|sy'| |sy' my' ey']; try discriminate.
    destruct x as [sx|sx| |sx mx ex]; cbn;
      try (left; reflexivity);
      destruct sx, sy, sy'; zero_signs.
  - destruct x as [sx|sx| |sx mx ex]; try discriminate.
    destruct x' as [sx'|sx'| |sx' mx' ex']; try discriminate.
    destruct y as [sy|sy| |sy my ey]; cbn;
      try (left; cbn; rewrite ?negb_involutive; reflexivity);
      destruct sx, sx', sy; zero_signs.
  - destruct x as [sx|sx| |sx mx ex]; try discriminate.
    destruct x' as [sx'|sx'| |sx' mx' ex']; try discriminate.
    destruct y as [sy|sy| |sy my ey]; try discriminate.
    destruct y' as [sy'|sy'| |sy' my' ey']; try discriminate.
    right. destruct sx, sx', sy, sy'; split; reflexivity.
Qed.

Lemma float_anti_neg a : float_anti a (PrimFloat.opp a).
Proof. unfold float_anti. rewrite opp_spec. now left. Qed.

Lemma float_anti_sub a a' b b' :
  float_anti a a' -> float_anti b b' ->
  float_anti (PrimFloat.sub a b) (PrimFloat.sub a' b').
Proof. unfold float_anti. rewrite !sub_spec. apply SFsub_anti. Qed.

Lemma float_anti_sqr a a' :
  float_anti a a' -> PrimFloat.mul a a = PrimFloat.mul a' a'.
Proof.
  unfold float_anti. intros H. apply Prim2SF_inj. rewrite !mul_spec.
  destruct H as [-> | [Hz Hz']].
  - destruct (Prim2SF a) as [s|s| |s m e]; cbn;
      [destruct s | destruct s | | destruct s]; reflexivity.
  - destruct (Prim2SF a) as [s|s| |s m e]; try discriminate.
    destruct (Prim2SF a') as [s'|s'| |s' m' e']; try discriminate.
    destruct s, s'; reflexivity.
Qed.

Lemma float_anti_abs a a' :
  float_anti a a' -> PrimFloat.abs a = PrimFloat.abs a'.
Proof.
  unfold float_anti. intros H. apply Prim2SF_inj. rewrite !abs_spec.
  destruct H as [-> | [Hz Hz']].
  - destruct (Prim2SF a) as [s|s| |s m e]; reflexivity.
  - destruct (Prim2SF a) as [s|s| |s m e]; try discriminate.
    destruct (Prim2SF a') as [s'|s'| |s' m' e']; try discriminate.
    reflexivity.
Qed.

Section Binary64Facts.
Variable libm_log : float -> float.
Variable libm_pow : float -> float -> float.
Variable np_add_reduce :
  memory_order -> nat -> nat -> nat -> list float -> float.
Variable np_count_inexact : Z -> Z -> option Z.

Local Abbreviation B64 :=
  (Binary64 libm_log libm_pow np_add_reduce np_count_inexact).
Local Abbreviation zero := (@fzero float B64).

(** The laws of zero that do not involve the C library hold by
    computation, and zero over zero is NaN. *)
Lemma binary64_zero_laws :
  @fsub _ B64 zero zero = zero /\
  @fmul _ B64 zero zero = zero /\
  @fadd _ B64 zero zero = zero /\
  @fabs _ B64 zero = zero /\
  @fsqrt _ B64 zero = zero /\
  @fdiv _ B64 zero (@point1 _ B64) = zero /\
  @fdiv _ B64 zero (@fint _ B64 3) = zero /\
  @fsub _ B64 5%float 5%float = zero /\
  PrimFloat.is_nan (@fdiv _ B64 zero zero) = true.
Proof. repeat split; vm_compute; reflexivity. Qed.

(** Four samples of 5.0 on the machine, with a C library in which
    [0 ** .1] is [0] and [10 ** .1] is the double nearest to the tenth root
    of ten, and with fewer than eight values summed in their order: the
    irregularity factor is NaN, the sparseness is not. *)
Lemma binary64_window_of_fives :
  libm_pow 0%float 0x1.999999999999ap-4%float = 0%float ->
  libm_pow 10%float 0x1.999999999999ap-4%float
  = 0x1.4248ef8fc2604p+0%float ->
  (forall o rows cols j l,
     (length l <? 8) = true ->
     np_add_reduce o rows cols j l = fold_left PrimFloat.add l 0%float) ->
  let S := constant_window [5%float] 4 in
  flatten (@KSM1_m2 _ B64 S) = [0%float] /\
  flatten (@KSM1_m4 _ B64 S) = [0%float] /\
  flatten (@KSM1_WLR _ B64 S) = [0%float] /\
  map PrimFloat.is_nan (flatten (@KSM1_IRF _ B64 S)) = [true] /\
  flatten (@KSM1_sparsi _ B64 S) = [1%float].
Proof.
  intros H0 H10 Hsum S.
  repeat split; vm_compute; rewrite !Hsum by reflexivity;
    vm_compute; rewrite ?H0, ?H10; vm_compute; reflexivity.
Qed.

(** C10.  On the machine numbers, whatever the C library computes for
    [log] and [**], [KSM1] returns the same features on [-S] as on [S] for
    every window [S], and so [getTDPSDfeatv3] returns the same result on
    [-x] as on [x], for every signal [x] and all parameters. *)
Theorem binary64_sign_invariance :
  (forall S, @KSM1 _ B64 (amap (@fneg _ B64) S) = @KSM1 _ B64 S) /\
  (forall x slidingParams,
     @getTDPSDfeatv3 _ B64 (amap (@fneg _ B64) x) slidingParams
     = @getTDPSDfeatv3 _ B64 x slidingParams).
Proof.
  split.
  - exact (@KSM1_neg _ B64 float_anti float_anti_neg float_anti_sub
             float_anti_sqr float_anti_abs).
  - exact (@getTDPSDfeatv3_neg _ B64 float_anti float_anti_neg
             float_anti_sub float_anti_sqr float_anti_abs).
Qed.

End Binary64Facts.

(** * Further properties *)

(** ** Every outcome of the call *)

Section Outcomes.
Context {F : Type} {FO : Float64 F}.

Implicit Types (x feat : ndarray F).





End Outcomes.

(** ** Windows shorter than the channel count, shifts and leftovers *)

Section MoreWindows.
Context {F : Type} {FO : Float64 F}.

Implicit Types (x feat W : ndarray F) (rows : list (list F)).

Lemma getrows_window_from_zero x winsize wininc i :
  (0 <= winsize)%Z -> (0 < wininc)%Z ->
  (Z.of_nat i * wininc + winsize <= Z.of_nat (shape0 x))%Z ->
  getrows x (0 + Z.of_nat i * wininc) (winsize + Z.of_nat i * wininc)
  = window x winsize wininc i.
Proof.
  intros Hs Hi Hle. unfold getrows, window.
  assert (Ha : py_bound (shape0 x) (0 + Z.of_nat i * wininc)
               = i * Z.to_nat wininc).
  { unfold py_bound.
    destruct (Z.ltb_spec (0 + Z.of_nat i * wininc) 0); nia. }
  assert (Hb : py_bound (shape0 x) (winsize + Z.of_nat i * wininc)
               = i * Z.to_nat wininc + Z.to_nat winsize).
  { unfold py_bound.
    destruct (Z.ltb_spec (winsize + Z.of_nat i * wininc) 0); nia. }
  rewrite Ha, Hb.
  replace (i * Z.to_nat wininc + Z.to_nat winsize - i * Z.to_nat wininc)
    with (Z.to_nat winsize) by lia.
  reflexivity.
Qed.

(** X2.  With fewer samples per window than channels (an empty window
    included) the call raises at the first assignment: [KSM1] transposes
    the window and returns [6 * winsize] values for a row of
    [channels * 6]. *)
Theorem short_window_raises x winsize wininc extra :
  wf x ->
  (0 <= winsize <= Z.of_nat (shape0 x))%Z ->
  (0 < wininc)%Z ->
  (winsize < Z.of_nat (shape1 x))%Z ->
  getTDPSDfeatv3 x (winsize :: wininc :: extra)
  = Raise (ValueErrorBroadcast (6 * Z.to_nat winsize) (shape1 x * 6)).
Proof.
  intros Hx Hs Hi Hc.
  unfold getTDPSDfeatv3. cbn [length Nat.ltb Nat.leb nth].
  rewrite line59_positive by lia. cbn [rbind].
  fold (window_count x winsize wininc).
  assert (Hq : (0 <= (Z.of_nat (shape0 x) - winsize) / wininc)%Z)
    by (apply Z.div_pos; lia).
  assert (Hn : (0 < window_count x winsize wininc)%Z)
    by (unfold window_count; lia).
  unfold np_zeros.
  replace (window_count x winsize wininc <? 0)%Z with false
    by (symmetry; apply Z.ltb_ge; lia).
  cbn [rbind]. unfold NFPC.
  destruct (Z.to_nat (window_count x winsize wininc)) as [|n] eqn:En;
    [lia|].
  cbn [seq window_loop].
  pose proof (@getrows_window_from_zero x winsize wininc 0
                ltac:(lia) Hi ltac:(lia)) as Hw.
  cbn [Z.of_nat] in Hw. rewrite !Z.mul_0_l, !Z.add_0_r in Hw.
  rewrite Hw.
  assert (HW : wf (window x winsize wininc 0)).
  { rewrite <- Hw. now apply wf_getrows. }
  pose proof (window_features_length HW) as Hlen.
  rewrite orient_wide in Hlen by (cbn [window shape0 shape1]; lia).
  cbn [transpose window shape0 shape1] in Hlen.
  unfold setitem_row; cbn [order shape0 shape1 data Nat.leb].
  rewrite Hlen.
  replace (6 * Z.to_nat winsize =? shape1 x * 6) with false
    by (symmetry; apply Nat.eqb_neq; lia).
  destruct (window_features (window x winsize wininc 0)) as [|a [|b v]];
    cbn [length] in Hlen; try lia; rewrite <- ?Hlen; reflexivity.
Qed.

Lemma window_drop_rows x winsize wininc i :
  window (drop_rows (Z.to_nat wininc) x) winsize wininc i
  = window x winsize wininc (S i).
Proof.
  unfold window, drop_rows; cbn [shape0 shape1 data].
  rewrite skipn_skipn. do 3 f_equal. cbn [Nat.mul]. lia.
Qed.

Lemma wf_drop_rows n x : wf x -> wf (drop_rows n x).
Proof.
  intros [Hl Hr]; split; cbn [drop_rows shape0 shape1 data].
  - now rewrite length_skipn, Hl.
  - now apply Forall_skipn_keeps.
Qed.

(** X4.  Sliding: on the signal without its first [wininc] rows the call returns
    the same feature rows without the first one. *)
Theorem shift_by_one_window x winsize wininc extra :
  wf x ->
  (0 < winsize)%Z ->
  (0 < wininc)%Z ->
  (Z.of_nat (shape1 x) <= winsize)%Z ->
  (winsize + wininc <= Z.of_nat (shape0 x))%Z ->
  exists feat feat',
    getTDPSDfeatv3 x (winsize :: wininc :: extra) = Ok feat /\
    getTDPSDfeatv3 (drop_rows (Z.to_nat wininc) x)
                   (winsize :: wininc :: extra) = Ok feat' /\
    shape0 feat = S (shape0 feat') /\
    shape1 feat' = shape1 feat /\
    data feat' = skipn 1 (data feat).
Proof.
  intros Hx Hs Hi Hc Hrows.
  set (x' := drop_rows (Z.to_nat wininc) x).
  assert (Hx' : wf x') by now apply wf_drop_rows.
  assert (Hcount : window_count x winsize wininc
                   = (window_count x' winsize wininc + 1)%Z).
  { unfold window_count, x', drop_rows; cbn [shape0].
    replace (Z.of_nat (shape0 x) - winsize)%Z
      with ((Z.of_nat (shape0 x - Z.to_nat wininc) - winsize)
            + 1 * wininc)%Z by lia.
    rewrite Z.div_add by lia. lia. }
  assert (Hq : (0 <= (Z.of_nat (shape0 x') - winsize) / wininc)%Z).
  { apply Z.div_pos; [|lia]. cbn [x' drop_rows shape0]. lia. }
  rewrite (getTDPSDfeatv3_windows extra Hx) by lia.
  rewrite (getTDPSDfeatv3_windows extra Hx')
    by (cbn [x' drop_rows shape0 shape1]; lia).
  eexists; eexists. split; [reflexivity|]. split; [reflexivity|].
  cbn [shape0 shape1 data].
  assert (Hn : Z.to_nat (window_count x winsize wininc)
               = S (Z.to_nat (window_count x' winsize wininc))).
  { assert (0 < window_count x' winsize wininc)%Z
      by (unfold window_count; lia).
    rewrite Hcount. lia. }
  rewrite Hn. repeat split.
  cbn [seq map skipn]. rewrite <- seq_shift, map_map.
  apply map_ext. intros i. f_equal. apply window_drop_rows.
Qed.

Lemma window_append_rows x rows winsize wininc i :
  length (data x) = shape0 x ->
  i * Z.to_nat wininc + Z.to_nat winsize <= shape0 x ->
  window (append_rows x rows) winsize wininc i = window x winsize wininc i.
Proof.
  intros Hl Hle. unfold window, append_rows; cbn [shape0 shape1 data].
  f_equal. rewrite skipn_app, firstn_app.
  rewrite length_skipn.
  replace (Z.to_nat winsize - (length (data x) - i * Z.to_nat wininc))
    with 0 by lia.
  now rewrite firstn_O, app_nil_r.
Qed.

(** X5.  Leftover samples are ignored: rows appended to the signal that do not
    complete one more window leave the result as it was. *)
Theorem leftover_rows_ignored x rows winsize wininc extra :
  wf x ->
  all_length (shape1 x) rows ->
  (0 < winsize <= Z.of_nat (shape0 x))%Z ->
  (0 < wininc)%Z ->
  (Z.of_nat (shape1 x) <= winsize)%Z ->
  ((Z.of_nat (shape0 x) - winsize) mod wininc + Z.of_nat (length rows)
   < wininc)%Z ->
  getTDPSDfeatv3 (append_rows x rows) (winsize :: wininc :: extra)
  = getTDPSDfeatv3 x (winsize :: wininc :: extra).
Proof.
  intros Hx Hrows Hs Hi Hc Hleft.
  assert (Hx' : wf (append_rows x rows)).
  { destruct Hx as [Hl Hr]. split; cbn [append_rows shape0 shape1 data].
    - rewrite length_app. lia.
    - apply Forall_app. split; assumption. }
  assert (Hcount : window_count (append_rows x rows) winsize wininc
                   = window_count x winsize wininc).
  { unfold window_count; cbn [append_rows shape0]. f_equal.
    set (a := (Z.of_nat (shape0 x) - winsize)%Z) in *.
    replace (Z.of_nat (shape0 x + length rows) - winsize)%Z
      with (a + Z.of_nat (length rows))%Z by lia.
    pose proof (Z.mod_pos_bound a wininc Hi).
    symmetry. apply (Z.div_unique _ _ _ (a mod wininc + Z.of_nat (length rows))%Z).
    - left. lia.
    - rewrite (Z.div_mod a wininc) at 1 by lia. lia. }
  rewrite (getTDPSDfeatv3_windows extra Hx') by
    (cbn [append_rows shape0 shape1]; lia).
  rewrite (getTDPSDfeatv3_windows extra Hx) by assumption.
  rewrite Hcount. cbn [append_rows shape1]. do 2 f_equal.
  apply map_ext_in. intros i Hin. apply in_seq in Hin.
  f_equal. apply window_append_rows; [apply Hx|].
  assert (Hq : (0 <= (Z.of_nat (shape0 x) - winsize) / wininc)%Z)
    by (apply Z.div_pos; lia).
  unfold window_count in Hin.
  pose proof (Z.mul_div_le (Z.of_nat (shape0 x) - winsize) wininc Hi).
  nia.
Qed.

End MoreWindows.

(** ** One channel at a time, all six features *)

Section PerChannelFeatures.
Context {F : Type} {FO : Float64 F}.

Implicit Types (W S M N x : ndarray F) (s u v : list F).

Lemma map2_nth_error {A B C} (f : A -> B -> C)
      (l : list A) (l' : list B) j a b :
  nth_error l j = Some a -> nth_error l' j = Some b ->
  nth_error (map2 f l l') j = Some (f a b).
Proof.
  revert l' j; induction l as [|a' l IH]; intros [|b' l'] [|j];
    cbn [map2 nth_error]; try discriminate.
  - now intros [= ->] [= ->].
  - apply IH.
Qed.

Lemma column_amap_nth n (f : F -> F) M j a :
  is_column n M ->
  nth_error (flatten M) j = Some a ->
  nth_error (flatten (amap f M)) j = Some (f a).
Proof.
  intros (u & _ & Hd) Ha.
  rewrite (flatten_data M (newaxis u) Hd), flatten_newaxis in Ha.
  assert (Hd' : data (amap f M) = data (newaxis (map f u))).
  { unfold amap; cbn [data]. rewrite Hd. apply (amap_newaxis f u). }
  rewrite (flatten_data _ _ Hd'), flatten_newaxis.
  now apply map_nth_error.
Qed.

Lemma column_amap2_nth n (f : F -> F -> F) M N j a b :
  is_column n M -> is_column n N ->
  nth_error (flatten M) j = Some a ->
  nth_error (flatten N) j = Some b ->
  nth_error (flatten (amap2 f M N)) j = Some (f a b).
Proof.
  intros (u & _ & Hu) (v & _ & Hv) Ha Hb.
  rewrite (flatten_data M (newaxis u) Hu), flatten_newaxis in Ha.
  rewrite (flatten_data N (newaxis v) Hv), flatten_newaxis in Hb.
  assert (Hd : data (amap2 f M N) = data (newaxis (map2 f u v))).
  { unfold amap2; cbn [data]. rewrite Hu, Hv. apply (amap2_newaxis f u v). }
  rewrite (flatten_data _ _ Hd), flatten_newaxis.
  now apply map2_nth_error.
Qed.

Section OneOrientedWindow.
Variable S : ndarray F.
Variable j : nat.
Hypothesis HS : wf S.
Hypothesis Hj : j < shape1 S.

Local Abbreviation s := (channel j S).
Local Abbreviation norm := (fun v : F => fdiv (fpow v point1) point1).
Local Abbreviation sum :=
  (fun rows l => sum_over_time (order S) rows (shape1 S) j l).

Lemma m0_entry :
  nth_error (flatten (KSM1_m0 S)) j
  = Some (norm (fsqrt (sum (length s) (squares s)))).
Proof.
  unfold KSM1_m0, normalise.
  rewrite (flatten_data _ _ (amap_newaxis _ _)), flatten_newaxis.
  rewrite map_map.
  erewrite map_nth_error; [|apply sum_axis0_nth_error; exact Hj].
  cbn [amap order shape0 shape1].
  now rewrite channel_amap, channel_length.
Qed.

Lemma m2_entry :
  nth_error (flatten (KSM1_m2 S)) j
  = Some (moment (sum (length s - 1) (squares (diff_signal s))) (length s)).
Proof.
  unfold KSM1_m2. rewrite moment_column; [|now apply wf_diff | exact Hj].
  unfold KSM1_d1. rewrite channel_diff, channel_length by assumption.
  cbn [diff_axis0 order shape0 shape1]. now rewrite Nat.sub_1_r.
Qed.

Lemma m4_entry :
  nth_error (flatten (KSM1_m4 S)) j
  = Some (moment (sum (length s - 2)
                      (squares (diff_signal (diff_signal s))))
                 (length s)).
Proof.
  unfold KSM1_m4.
  rewrite moment_column; [|now apply wf_diff, wf_diff | exact Hj].
  unfold KSM1_d2, KSM1_d1.
  rewrite !channel_diff by (auto using wf_diff).
  rewrite channel_length by assumption.
  cbn [diff_axis0 order shape0 shape1].
  now replace (shape0 S - 2) with (pred (pred (shape0 S))) by lia.
Qed.

Lemma WLR_entry :
  nth_error (flatten (KSM1_WLR S)) j
  = Some (fsub (sum (length s - 1) (map fabs (diff_signal s)))
               (sum (length s - 2)
                    (map fabs (diff_signal (diff_signal s))))).
Proof.
  unfold KSM1_WLR. rewrite flatten_newaxis.
  assert (H1 : wf (KSM1_d1 S)) by now apply wf_diff.
  assert (H2 : wf (KSM1_d2 S)) by now apply wf_diff.
  erewrite map2_nth_error;
    [| apply sum_axis0_nth_error; exact Hj
     | apply sum_axis0_nth_error; exact Hj].
  rewrite !channel_amap by assumption.
  unfold KSM1_d2, KSM1_d1.
  rewrite !channel_diff by (auto using wf_diff).
  rewrite channel_length by assumption.
  cbn [amap diff_axis0 order shape0 shape1].
  rewrite Nat.sub_1_r.
  now replace (shape0 S - 2) with (pred (pred (shape0 S))) by lia.
Qed.

(** Entry [k * channels + j] of the features of an oriented window is
    feature [k] of channel [j]. *)
Lemma KSM1_body_entry k :
  k < 6 ->
  nth_error (KSM1_body S) (k * shape1 S + j)
  = nth_error (channel_features (order S) (shape1 S) j s) k.
Proof.
  intros Hk.
  pose proof (m0_column HS) as C0.
  pose proof (m2_column HS) as C2.
  pose proof (m4_column HS) as C4.
  unfold KSM1_body. rewrite KSM1_body_stacked. unfold flatten.
  pose proof (wf_amap (fun a => flog (fabs a)) (wf_stacked HS))
    as [_ Hr].
  change (shape1 (amap (fun a => flog (fabs a)) (stacked S)))
    with (shape1 S) in Hr.
  rewrite (nth_error_concat k Hr Hj).
  unfold amap, stacked; cbn [data map].
  unfold channel_features.
  pose proof m0_entry as E0. pose proof m2_entry as E2.
  pose proof m4_entry as E4.
  pose proof (column_amap2_nth fsub j C0 C2 E0 E2) as E02.
  pose proof (column_amap2_nth fsub j C0 C4 E0 E4) as E04.
  pose proof (is_column_amap2 fsub C0 C2) as C02.
  pose proof (is_column_amap2 fsub C0 C4) as C04.
  pose proof (column_amap2_nth fmul j C02 C04 E02 E04) as Ep.
  pose proof (is_column_amap2 fmul C02 C04) as Cp.
  pose proof (column_amap_nth fabs j Cp Ep) as Ea.
  pose proof (is_column_amap fabs Cp) as Ca.
  pose proof (column_amap_nth fsqrt j Ca Ea) as Esd.
  pose proof (is_column_amap fsqrt Ca) as Csd.
  pose proof (column_amap2_nth fdiv j C0 Csd E0 Esd) as Esp.
  pose proof (column_amap2_nth fmul j C0 C4 E0 E4) as Em.
  pose proof (is_column_amap2 fmul C0 C4) as Cm.
  pose proof (column_amap_nth fsqrt j Cm Em) as Ei.
  pose proof (is_column_amap fsqrt Cm) as Ci.
  pose proof (column_amap2_nth fdiv j C2 Ci E2 Ei) as Eirf.
  destruct k as [|[|[|[|[|[|k]]]]]]; [..|lia]; cbn [nth nth_error map].
  - erewrite map_nth_error; [reflexivity | exact E0].
  - erewrite map_nth_error; [reflexivity | exact E02].
  - erewrite map_nth_error; [reflexivity | exact E04].
  - erewrite map_nth_error; [reflexivity | exact Esp].
  - erewrite map_nth_error; [reflexivity | exact Eirf].
  - erewrite map_nth_error; [reflexivity | apply WLR_entry].
Qed.

End OneOrientedWindow.

Lemma orient_oriented W :
  shape1 (KSM1_orient W) <= shape0 (KSM1_orient W).
Proof.
  unfold KSM1_orient.
  destruct (Nat.ltb_spec (shape0 W) (shape1 W)); cbn [transpose shape0 shape1];
    lia.
Qed.

(** X6.  Every entry of [KSM1 W] is a feature of one channel of the oriented
    window: entry [k * channels + j] is feature [k] computed from the
    samples of channel [j], with NumPy's sums for the memory order and the
    width of the oriented window. *)
Theorem KSM1_per_channel W k j :
  wf W ->
  let S := KSM1_orient W in
  k < 6 -> j < shape1 S ->
  nth_error (KSM1 W) (k * shape1 S + j)
  = nth_error (channel_features (order S) (shape1 S) j (channel j S)) k.
Proof.
  intros HW S Hk Hj. unfold KSM1. fold S.
  apply KSM1_body_entry; auto. now apply wf_orient.
Qed.

Lemma orient_same_layout W W' :
  order W = order W' -> shape0 W = shape0 W' -> shape1 W = shape1 W' ->
  order (KSM1_orient W) = order (KSM1_orient W') /\
  shape1 (KSM1_orient W) = shape1 (KSM1_orient W').
Proof.
  intros Ho H0 H1. unfold KSM1_orient. rewrite <- H0, <- H1.
  destruct (shape0 W <? shape1 W); cbn [transpose order shape1];
    split; congruence.
Qed.

(** X7.  Channels do not mix in [KSM1]: two windows of one shape and one
    memory order whose oriented forms agree on channel [j] have the same
    six features for channel [j], whatever their other channels hold. *)
Theorem KSM1_channels_independent W W' k j :
  wf W -> wf W' ->
  order W = order W' -> shape0 W = shape0 W' -> shape1 W = shape1 W' ->
  let S := KSM1_orient W in
  let S' := KSM1_orient W' in
  channel j S = channel j S' ->
  k < 6 -> j < shape1 S ->
  nth_error (KSM1 W) (k * shape1 S + j)
  = nth_error (KSM1 W') (k * shape1 S' + j).
Proof.
  intros HW HW' Ho H0 H1 S S' Hch Hk Hj.
  destruct (orient_same_layout W W' Ho H0 H1) as [HoS H1S].
  fold S S' in HoS, H1S.
  assert (HS : wf S) by now apply wf_orient.
  assert (HS' : wf S') by now apply wf_orient.
  assert (Hj' : j < shape1 S') by now rewrite <- H1S.
  unfold KSM1. fold S S'.
  rewrite (KSM1_body_entry HS Hj Hk), (KSM1_body_entry HS' Hj' Hk).
  now rewrite Hch, HoS, H1S.
Qed.

End PerChannelFeatures.

(** ** Channels through the whole call *)

Section ChannelsThroughCall.
Context {F : Type} {FO : Float64 F}.

Implicit Types (W x : ndarray F).

Lemma map2_nth_error_none {A B C} (f : A -> B -> C)
      (l : list A) (l' : list B) j :
  nth_error l j = None -> nth_error (map2 f l l') j = None.
Proof.
  revert l' j; induction l as [|a l IH]; intros [|b l'] [|j];
    cbn [map2 nth_error]; try discriminate; auto.
Qed.

(** The features of a window whose channels are no more than its samples,
    read at channel [j], are the feature row of that channel. *)
Lemma window_features_entry W k j :
  wf W -> shape1 W <= shape0 W ->
  k < 6 -> j < shape1 W ->
  nth_error (window_features W) (k * shape1 W + j)
  = nth_error (channel_row (order W) (shape1 W) j (channel j W)) k.
Proof.
  intros HW Ho Hk Hj.
  set (g := fun a => flog (fadd (fmul a a) spacing1)).
  assert (HL : wf (log_power W)) by (apply wf_amap; exact HW).
  assert (E1 : nth_error (KSM1 W) (k * shape1 W + j)
               = nth_error (channel_features (order W) (shape1 W) j
                              (channel j W)) k).
  { unfold KSM1. rewrite (orient_tall W Ho).
    now apply KSM1_body_entry. }
  assert (E2 : nth_error (KSM1 (log_power W)) (k * shape1 W + j)
               = nth_error (channel_features (order W) (shape1 W) j
                              (map g (channel j W))) k).
  { unfold KSM1. rewrite (orient_tall (log_power W) Ho).
    rewrite <- (channel_amap g HW Hj).
    exact (@KSM1_body_entry _ _ (log_power W) j HL Hj k Hk). }
  rewrite window_features_contrast.
  unfold channel_row. fold g.
  destruct (nth_error (channel_features (order W) (shape1 W) j
                         (channel j W)) k) as [b|] eqn:Eb.
  - destruct (nth_error (channel_features (order W) (shape1 W) j
                           (map g (channel j W))) k) as [a|] eqn:Ea.
    + rewrite (map2_nth_error contrast _ _ _ E2 E1).
      now rewrite (map2_nth_error contrast _ _ _ Ea Eb).
    + rewrite (map2_nth_error_none contrast _ _ _ E2).
      now rewrite (map2_nth_error_none contrast _ _ _ Ea).
  - exfalso. apply nth_error_None in Eb.
    unfold channel_features in Eb. cbn [length map] in Eb. lia.
Qed.

Lemma nth_map_seq {A} (f : nat -> A) n i d :
  i < n -> nth i (map f (seq 0 n)) d = f i.
Proof.
  intros H.
  rewrite (nth_indep _ d (f 0)) by (rewrite length_map, length_seq; exact H).
  rewrite map_nth. now rewrite seq_nth.
Qed.

Lemma channel_window x j winsize wininc i :
  channel j (window x winsize wininc i)
  = firstn (Z.to_nat winsize) (skipn (i * Z.to_nat wininc) (channel j x)).
Proof.
  unfold channel, window; cbn [data].
  now rewrite skipn_map, firstn_map.
Qed.

(** X8.  Channels do not mix in the call: on two valid signals of one shape
    and one memory order that agree on channel [j], the six columns that
    the results have for channel [j] are the same, whatever the other
    channels hold. *)
Theorem channels_independent x x' j winsize wininc extra :
  wf x -> wf x' ->
  order x = order x' -> shape0 x = shape0 x' -> shape1 x = shape1 x' ->
  channel j x = channel j x' ->
  (0 < winsize <= Z.of_nat (shape0 x))%Z ->
  (0 < wininc)%Z ->
  (Z.of_nat (shape1 x) <= winsize)%Z ->
  j < shape1 x ->
  exists feat feat',
    getTDPSDfeatv3 x (winsize :: wininc :: extra) = Ok feat /\
    getTDPSDfeatv3 x' (winsize :: wininc :: extra) = Ok feat' /\
    shape0 feat' = shape0 feat /\
    shape1 feat' = shape1 feat /\
    forall i k, k < 6 ->
      nth_error (nth i (data feat) []) (k * shape1 x + j)
      = nth_error (nth i (data feat') []) (k * shape1 x + j).
Proof.
  intros Hx Hx' Ho H0 H1 Hch Hs Hi Hc Hj.
  assert (Hcount : window_count x' winsize wininc
                   = window_count x winsize wininc).
  { unfold window_count. now rewrite H0. }
  rewrite (getTDPSDfeatv3_windows extra Hx) by assumption.
  rewrite (getTDPSDfeatv3_windows extra Hx')
    by (rewrite <- ?H0, <- ?H1; assumption).
  rewrite Hcount, <- H1.
  eexists; eexists. split; [reflexivity|]. split; [reflexivity|].
  cbn [shape0 shape1 data].
  split; [reflexivity|]. split; [reflexivity|].
  intros i k Hk.
  set (numwin := Z.to_nat (window_count x winsize wininc)).
  destruct (Nat.lt_ge_cases i numwin) as [Hin|Hout].
  - rewrite !nth_map_seq by exact Hin.
    assert (Hle : (Z.of_nat i * wininc + winsize <= Z.of_nat (shape0 x))%Z).
    { unfold numwin, window_count in Hin.
      assert (0 <= (Z.of_nat (shape0 x) - winsize) / wininc)%Z
        by (apply Z.div_pos; lia).
      pose proof (Z.mul_div_le (Z.of_nat (shape0 x) - winsize) wininc Hi).
      nia. }
    assert (HW : wf (window x winsize wininc i))
      by (apply wf_window; auto; lia).
    assert (HW' : wf (window x' winsize wininc i))
      by (apply wf_window; auto; lia).
    pose proof (@window_features_entry (window x winsize wininc i) k j HW)
      as E.
    pose proof (@window_features_entry (window x' winsize wininc i) k j HW')
      as E'.
    cbn [window order shape0 shape1] in E, E'.
    rewrite <- H1 in E'.
    rewrite E, E' by (auto; lia).
    now rewrite !channel_window, Hch, Ho.
  - rewrite !nth_overflow by (rewrite length_map, length_seq; exact Hout).
    now rewrite !nth_error_nil.
Qed.

End ChannelsThroughCall.

(** ** What a successful call allocates, and how many features *)

Section Allocation.
Context {F : Type} {FO : Float64 F}.

Implicit Types (h : heap F) (X feat W : ndarray F).

(** X10.  A call that succeeds adds exactly two objects to the store, the copy of
    the signal and the feature matrix, and returns the address of the
    feature matrix, which no object had before the call. *)
Theorem successful_call_allocates h xl X slidingParams feat :
  nth_error h xl = Some X ->
  getTDPSDfeatv3 X slidingParams = Ok feat ->
  getTDPSDfeatv3_heap xl slidingParams h
  = (Ok (S (length h)), h ++ [X; feat]).
Proof.
  intros Hx. unfold getTDPSDfeatv3_heap, getTDPSDfeatv3.
  unfold bind at 1. unfold np_array, bind at 1, load. rewrite Hx.
  unfold alloc.
  destruct (length slidingParams <? 2); [discriminate|].
  unfold bind at 1, load. rewrite nth_error_here.
  unfold bind at 1, lift.
  destruct (line59_numwin _ _) as [numwin|e]; cbn [rbind]; [|discriminate].
  unfold bind at 1.
  destruct (np_zeros _ _) as [feat0|e]; cbn [rbind]; [|discriminate].
  unfold bind at 1, alloc.
  replace (length (h ++ [X])) with (S (length h))
    by (rewrite length_app; simpl; lia).
  rewrite <- app_assoc. cbn [app].
  unfold bind at 1.
  match goal with
  | |- context [window_loop_heap _ ?w ?ix ?st ?en _ _] =>
      destruct (window_loop_heap_run h X w ix st en feat0)
        as (r & feat' & Hrun & Hres)
  end.
  rewrite Hrun. intros Hpure. rewrite Hpure in Hres.
  destruct Hres as [-> ->]. reflexivity.
Qed.

(** X9.  [KSM1] returns six features for each channel of the oriented window,
    that is six times the smaller dimension of the window; an empty window
    gives no features at all. *)
Theorem KSM1_feature_count W :
  wf W ->
  length (KSM1 W) = 6 * Nat.min (shape0 W) (shape1 W) /\
  length (window_features W) = 6 * Nat.min (shape0 W) (shape1 W) /\
  (shape0 W = 0 \/ shape1 W = 0 -> KSM1 W = []).
Proof.
  intros HW.
  assert (Hmin : shape1 (KSM1_orient W) = Nat.min (shape0 W) (shape1 W)).
  { unfold KSM1_orient.
    destruct (Nat.ltb_spec (shape0 W) (shape1 W));
      cbn [transpose shape1]; lia. }
  assert (Hlen : length (KSM1 W) = 6 * Nat.min (shape0 W) (shape1 W))
    by now rewrite (KSM1_length HW), Hmin.
  split; [exact Hlen|]. split.
  - now rewrite (window_features_length HW), Hmin.
  - intros Hempty. apply length_zero_iff_nil. rewrite Hlen. lia.
Qed.

End Allocation.

(** ** A row is the call on its window *)

Section RowAlone.
Context {F : Type} {FO : Float64 F}.

Implicit Types (x feat W : ndarray F).

Lemma window_of_window x winsize wininc i :
  window (window x winsize wininc i) winsize wininc 0
  = window x winsize wininc i.
Proof.
  unfold window; cbn [shape0 shape1 data Nat.mul skipn].
  rewrite firstn_firstn. now rewrite Nat.min_id.
Qed.

(** X3.  Row [i] of the result is what the call returns on window [i] alone: the
    call on rows [i * wininc, i * wininc + winsize) of [x] returns a matrix
    of one row, row [i] of the result on [x]. *)
Theorem row_is_call_on_window x winsize wininc extra i :
  wf x ->
  (0 < winsize <= Z.of_nat (shape0 x))%Z ->
  (0 < wininc)%Z ->
  (Z.of_nat (shape1 x) <= winsize)%Z ->
  (Z.of_nat i < window_count x winsize wininc)%Z ->
  exists feat,
    getTDPSDfeatv3 x (winsize :: wininc :: extra) = Ok feat /\
    getTDPSDfeatv3 (window x winsize wininc i) (winsize :: wininc :: extra)
    = Ok (mkarr 1 (shape1 x * 6) [nth i (data feat) []]).
Proof.
  intros Hx Hs Hi Hc Hlt.
  assert (Hle : (Z.of_nat i * wininc + winsize <= Z.of_nat (shape0 x))%Z).
  { unfold window_count in Hlt.
    pose proof (Z.mul_div_le (Z.of_nat (shape0 x) - winsize) wininc Hi).
    nia. }
  assert (HW : wf (window x winsize wininc i))
    by (apply wf_window; auto; lia).
  rewrite (getTDPSDfeatv3_windows extra Hx) by assumption.
  rewrite (getTDPSDfeatv3_windows extra HW)
    by (cbn [window shape0 shape1]; lia).
  assert (Hone : window_count (window x winsize wininc i) winsize wininc
                 = 1%Z).
  { unfold window_count; cbn [window shape0].
    rewrite Z2Nat.id by lia. rewrite Z.sub_diag, Z.div_0_l by lia.
    reflexivity. }
  eexists. split; [reflexivity|].
  rewrite Hone. change (Z.to_nat 1) with 1. cbn [seq map data].
  rewrite window_of_window. cbn [window shape1].
  rewrite nth_map_seq by lia. reflexivity.
Qed.

End RowAlone.

(** ** One sample per window on the machine *)

Lemma float_sub_nan_r a : PrimFloat.sub a nan = nan.
Proof.
  apply Prim2SF_inj. rewrite sub_spec.
  change (Prim2SF nan) with S754_nan.
  now destruct (Prim2SF a).
Qed.

Lemma float_mul_nan_r a : PrimFloat.mul a nan = nan.
Proof.
  apply Prim2SF_inj. rewrite mul_spec.
  change (Prim2SF nan) with S754_nan.
  now destruct (Prim2SF a).
Qed.

Lemma float_div_nan_r a : PrimFloat.div a nan = nan.
Proof.
  apply Prim2SF_inj. rewrite div_spec.
  change (Prim2SF nan) with S754_nan.
  now destruct (Prim2SF a).
Qed.

Section OneSample.
Variable libm_log : float -> float.
Variable libm_pow : float -> float -> float.
Variable np_add_reduce :
  memory_order -> nat -> nat -> nat -> list float -> float.
Variable np_count_inexact : Z -> Z -> option Z.
Hypothesis pow_nan : libm_pow nan 0x1.999999999999ap-4%float = nan.

Local Abbreviation B64 :=
  (Binary64 libm_log libm_pow np_add_reduce np_count_inexact).

(** X11.  A window of one sample divides by [samples - 1 = 0]: zero over zero is
    NaN, and with a C library whose [**] propagates NaN four of the six
    features are [log (NaN)], whatever the sample is. *)
Theorem one_sample_window_features (v : float) :
  let m0 :=
    PrimFloat.div
      (libm_pow (PrimFloat.sqrt (PrimFloat.mul v v)) 0x1.999999999999ap-4)
      0x1.999999999999ap-4 in
  @KSM1 _ B64 (mkarr 1 1 [[v]])
  = [libm_log (PrimFloat.abs m0);
     libm_log nan; libm_log nan; libm_log nan; libm_log nan;
     libm_log 0%float].
Proof.
  intros m0. subst m0.
  pose proof pow_nan as Hpow. pose proof float_sub_nan_r as Hsub.
  pose proof float_mul_nan_r as Hmul. pose proof float_div_nan_r as Hdiv.
  vm_compute in Hpow, Hsub, Hmul, Hdiv. vm_compute.
  rewrite Hpow. vm_compute.
  rewrite !Hsub. vm_compute.
  rewrite Hmul. vm_compute.
  rewrite Hdiv. vm_compute.
  reflexivity.
Qed.
End OneSample.

(** * The theorems at concrete inputs *)

(** ** Laws of the real instance *)



Lemma Ranti_sub a a' b b' :
  Ranti a a' -> Ranti b b' -> Ranti (fsub a b) (fsub a' b').
Proof. unfold Ranti; cbn; intros -> ->. ring. Qed.

Lemma Ranti_sqr a a' : Ranti a a' -> fsqr a = fsqr a'.
Proof. unfold Ranti, fsqr; cbn; intros ->. ring. Qed.

Lemma Ranti_abs a a' : Ranti a a' -> fabs a = fabs a'.
Proof. unfold Ranti; cbn; intros ->. symmetry. apply Rabs_Ropp. Qed.

Lemma wf_signal_1_to_6 : wf signal_1_to_6.
Proof. split; [reflexivity | repeat constructor]. Defined.

Lemma wf_wide_signal : wf wide_signal.
Proof. split; [reflexivity | repeat constructor]. Defined.

Lemma wf_wide_row : wf wide_row.
Proof. split; [reflexivity | repeat constructor]. Defined.

Lemma wf_short_signal : wf short_signal.
Proof. split; [reflexivity | repeat constructor]. Defined.

(** ** C1 *)

(** The signal has two rows and three channels and [winsize = 2],
    [wininc = 1] are positive with [winsize] no more than the row count, so
    window 0 exists; the call raises at its first assignment and sets no
    row.  And [eps], which is [np.spacing (1)], is 2^-52 on the machine,
    not the smallest positive number: 2^-1074 is positive and smaller. *)
Lemma window_rows_counterexample :
  (wf wide_signal /\
   (0 < 2 <= Z.of_nat (shape0 wide_signal))%Z /\
   (0 < 1)%Z /\
   (Z.of_nat 0 < window_count wide_signal 2 1)%Z /\
   getTDPSDfeatv3 wide_signal [2; 1]%Z = Raise (ValueErrorBroadcast 12 18))
  /\
  (np_spacing 1%float = 0x1p-52%float /\
   PrimFloat.ltb 0%float 0x1p-1074%float = true /\
   PrimFloat.ltb 0x1p-1074%float (np_spacing 1%float) = true).
Proof.
  split.
  - split; [exact wf_wide_signal|].
    repeat split; try (cbn; lia); reflexivity.
  - exact spacing_of_one.
Qed.

Lemma window_rows_witness :
  exists feat,
    getTDPSDfeatv3 signal_1_to_6 [4; 2]%Z = Ok feat /\
    forall i, (Z.of_nat i < window_count signal_1_to_6 4 2)%Z ->
      let curwin := window signal_1_to_6 4 2 i in
      let ebp := KSM1 curwin in
      let efp := KSM1 (log_power curwin) in
      nth_error (data feat) i = Some (map2 contrast efp ebp).
Proof.
  apply (proj1 (@window_rows_and_contrast R Rfloat) signal_1_to_6 4%Z 2%Z []).
  - exact wf_signal_1_to_6.
  - cbn; lia.
  - lia.
  - cbn; lia.
Defined.

(** ** C2 *)

(** One row, two channels, [winsize = wininc = 1]: a valid input, and the
    call returns no matrix. *)
Lemma output_shape_counterexample :
  wf wide_row /\
  (0 < 1 <= Z.of_nat (shape0 wide_row))%Z /\
  (0 < 1)%Z /\
  getTDPSDfeatv3 wide_row [1; 1]%Z = Raise (ValueErrorBroadcast 6 12).
Proof.
  split; [exact wf_wide_row|].
  repeat split; try (cbn; lia); reflexivity.
Qed.

Lemma output_shape_witness :
  exists feat,
    getTDPSDfeatv3 signal_1_to_6 [4; 2]%Z = Ok feat /\
    wf feat /\
    Z.of_nat (shape0 feat)
    = ((Z.of_nat (shape0 signal_1_to_6) - 4) / 2 + 1)%Z /\
    shape1 feat = shape1 signal_1_to_6 * 6.
Proof.
  apply (@output_shape R Rfloat signal_1_to_6 4%Z 2%Z []).
  - exact wf_signal_1_to_6.
  - cbn; lia.
  - lia.
  - cbn; lia.
Defined.

(** ** C3 *)

Lemma wf_signal_of_squares : wf signal_of_squares.
Proof. split; [reflexivity | repeat constructor]. Defined.

(** On the signal 1, 4, 9, 16, 25, 36 the squares of the second
    difference sum to 16, and [m4] divides them by 5, the number of samples
    less one, not by 4, the number of second differences. *)
Lemma m4_of_squares :
  nth_error (flatten (KSM1_m4 signal_of_squares)) 0
  = Some (Rpow (sqrt (16 / 5)) (1 / 10) / (1 / 10))%R /\
  (sqrt (16 / 5) <> sqrt (16 / 4))%R.
Proof.
  split.
  - cbn. do 4 f_equal. lra.
  - intros E. apply sqrt_inj in E; lra.
Qed.

Lemma m2_m4_formula_witness :
  let S := KSM1_orient signal_of_squares in
  let d1 := diff_signal (channel 0 S) in
  let d2 := diff_signal d1 in
  let sum1 := sum_over_time (order S) 5 1 0 (squares d1) in
  let sum2 := sum_over_time (order S) 4 1 0 (squares d2) in
  nth_error (flatten (KSM1_m2 S)) 0 = Some (moment sum1 6) /\
  nth_error (flatten (KSM1_m4 S)) 0 = Some (moment sum2 6) /\
  length d1 = 5 /\
  length d2 = 4.
Proof.
  apply (@m2_m4_formula R Rfloat signal_of_squares 0).
  - exact wf_signal_of_squares.
  - cbn; lia.
Defined.

(** ** C4 *)

Lemma KSM1_feature_order_witness :
  let S := KSM1_orient wide_signal in
  let logabs := fun v : R => flog (fabs v) in
  wf (stacked S) /\
  KSM1 wide_signal = flatten (amap logabs (stacked S)) /\
  length (KSM1 wide_signal) = 6 * shape1 S /\
  forall k j, j < shape1 S ->
    nth_error (KSM1 wide_signal) (k * shape1 S + j)
    = nth_error (map logabs (nth k (data (stacked S)) [])) j.
Proof.
  apply (@KSM1_feature_order R Rfloat wide_signal).
  exact wf_wide_signal.
Defined.

(** ** C5 *)

Lemma argument_count_witness :
  getTDPSDfeatv3 signal_1_to_6 [4%Z] = Raise (TypeError 1) /\
  is_TypeError (getTDPSDfeatv3 signal_1_to_6 [4; 2]%Z) = false.
Proof.
  split.
  - apply (proj1 (@argument_count_check R Rfloat signal_1_to_6 [4%Z])).
    cbn; lia.
  - apply (proj2 (@argument_count_check R Rfloat signal_1_to_6 [4; 2]%Z)).
    cbn; lia.
Defined.

(** ** C7 *)


(** ** C8 *)

(** Two rows, [winsize = 5], [wininc = 1]: the window count is [-2], and the
    call raises instead of returning a matrix with no rows. *)
Lemma degenerate_counterexample :
  (window_count short_signal 5 1 <= 0)%Z /\
  getTDPSDfeatv3 short_signal [5; 1]%Z = Raise ValueErrorNegativeDim.
Proof.
  split; [cbn; lia | reflexivity].
Qed.

Lemma degenerate_witness :
  line59_numwin (Z.of_nat (shape0 short_signal) - 3) 2
  = Ok (window_count short_signal 3 2) /\
  getTDPSDfeatv3 short_signal [3; 2]%Z = Ok (mkarr 0 (1 * 6) []) /\
  getTDPSDfeatv3 short_signal [5; 1]%Z = Raise ValueErrorNegativeDim.
Proof.
  destruct (@degenerate_window_count R Rfloat short_signal 3%Z 2%Z []
              ltac:(lia)) as (Hcount & Hzero & _).
  destruct (@degenerate_window_count R Rfloat short_signal 5%Z 1%Z []
              ltac:(lia)) as (_ & _ & Hneg).
  split; [apply Hcount; cbn; lia|].
  split; [apply Hzero; reflexivity|].
  apply (Hneg (-2)%Z); [reflexivity | lia].
Defined.

(** ** C9 *)

Lemma caller_matrix_witness :
  let h := [signal_1_to_6] in
  let run1 := getTDPSDfeatv3_heap 0 [4; 2]%Z h in
  let run2 := getTDPSDfeatv3_heap 0 [4; 2]%Z (snd run1) in
  nth_error (snd run1) 0 = Some signal_1_to_6 /\
  nth_error (snd run2) 0 = Some signal_1_to_6.
Proof.
  intros h run1 run2.
  destruct (@caller_matrix_unchanged R Rfloat h 0 signal_1_to_6 [4; 2]%Z
              eq_refl) as (H1 & H2 & _).
  split; assumption.
Defined.

(** ** Sign invariance on the reals *)

Lemma sign_invariance_on_reals :
  KSM1 (amap fneg signal_1_to_6) = KSM1 signal_1_to_6 /\
  getTDPSDfeatv3 (amap fneg signal_1_to_6) [4; 2]%Z
  = getTDPSDfeatv3 signal_1_to_6 [4; 2]%Z.
Proof.
  destruct (@sign_invariance R Rfloat Ranti
              (fun a => eq_refl) Ranti_sub Ranti_sqr Ranti_abs)
    as [HK Hg].
  split; [apply HK | apply Hg].
Qed.

(** ** C6 *)











(** ** Further properties at concrete inputs *)

Lemma wf_two_channel_signal : wf two_channel_signal.
Proof. split; [reflexivity | repeat constructor]. Defined.

Lemma short_window_witness :
  getTDPSDfeatv3 wide_signal [2; 1]%Z = Raise (ValueErrorBroadcast 12 18) /\
  getTDPSDfeatv3 wide_signal [0; 1]%Z = Raise (ValueErrorBroadcast 0 18).
Proof.
  split.
  - apply (@short_window_raises R Rfloat wide_signal 2%Z 1%Z []).
    + exact wf_wide_signal.
    + cbn; lia.
    + lia.
    + cbn; lia.
  - apply (@short_window_raises R Rfloat wide_signal 0%Z 1%Z []).
    + exact wf_wide_signal.
    + cbn; lia.
    + lia.
    + cbn; lia.
Defined.

Lemma shift_witness :
  exists feat feat',
    getTDPSDfeatv3 signal_1_to_6 [4; 2]%Z = Ok feat /\
    getTDPSDfeatv3 (drop_rows (Z.to_nat 2) signal_1_to_6) [4; 2]%Z
    = Ok feat' /\
    shape0 feat = S (shape0 feat') /\
    shape1 feat' = shape1 feat /\
    data feat' = skipn 1 (data feat).
Proof.
  apply (@shift_by_one_window R Rfloat signal_1_to_6 4%Z 2%Z []).
  - exact wf_signal_1_to_6.
  - lia.
  - lia.
  - cbn; lia.
  - cbn; lia.
Defined.

Lemma leftover_witness :
  getTDPSDfeatv3 (append_rows signal_1_to_6 [[7%R]]) [4; 2]%Z
  = getTDPSDfeatv3 signal_1_to_6 [4; 2]%Z.
Proof.
  apply (@leftover_rows_ignored R Rfloat signal_1_to_6 [[7%R]] 4%Z 2%Z []).
  - exact wf_signal_1_to_6.
  - repeat constructor.
  - cbn; lia.
  - lia.
  - cbn; lia.
  - cbn; lia.
Defined.

Lemma per_channel_witness :
  nth_error (KSM1 wide_signal)
            (3 * shape1 (KSM1_orient wide_signal) + 1)
  = nth_error (channel_features F_order 2 1
                 (channel 1 (KSM1_orient wide_signal))) 3.
Proof.
  apply (@KSM1_per_channel R Rfloat wide_signal 3 1).
  - exact wf_wide_signal.
  - lia.
  - cbn; lia.
Defined.

Lemma wf_wide_signal_b : wf wide_signal_b.
Proof. split; [reflexivity | repeat constructor]. Defined.

Lemma wf_two_channel_signal_b : wf two_channel_signal_b.
Proof. split; [reflexivity | repeat constructor]. Defined.

Lemma KSM1_channels_witness :
  nth_error (KSM1 wide_signal)
            (3 * shape1 (KSM1_orient wide_signal) + 1)
  = nth_error (KSM1 wide_signal_b)
              (3 * shape1 (KSM1_orient wide_signal_b) + 1).
Proof.
  apply (@KSM1_channels_independent R Rfloat wide_signal wide_signal_b 3 1).
  - exact wf_wide_signal.
  - exact wf_wide_signal_b.
  - reflexivity.
  - reflexivity.
  - reflexivity.
  - reflexivity.
  - lia.
  - cbn; lia.
Defined.

Lemma channels_witness :
  exists feat feat',
    getTDPSDfeatv3 two_channel_signal [2; 1]%Z = Ok feat /\
    getTDPSDfeatv3 two_channel_signal_b [2; 1]%Z = Ok feat' /\
    shape0 feat' = shape0 feat /\
    shape1 feat' = shape1 feat /\
    forall i k, k < 6 ->
      nth_error (nth i (data feat) []) (k * shape1 two_channel_signal + 1)
      = nth_error (nth i (data feat') [])
                  (k * shape1 two_channel_signal + 1).
Proof.
  apply (@channels_independent R Rfloat two_channel_signal
           two_channel_signal_b 1 2%Z 1%Z []).
  - exact wf_two_channel_signal.
  - exact wf_two_channel_signal_b.
  - reflexivity.
  - reflexivity.
  - reflexivity.
  - reflexivity.
  - cbn; lia.
  - lia.
  - cbn; lia.
  - cbn; lia.
Defined.

Lemma allocation_witness :
  let feat :=
    mkarr 2 6 [window_features (window signal_1_to_6 4 2 0);
               window_features (window signal_1_to_6 4 2 1)] in
  getTDPSDfeatv3 signal_1_to_6 [4; 2]%Z = Ok feat /\
  getTDPSDfeatv3_heap 0 [4; 2]%Z [signal_1_to_6]
  = (Ok 2, [signal_1_to_6; signal_1_to_6; feat]).
Proof.
  intros feat.
  assert (E : getTDPSDfeatv3 signal_1_to_6 [4; 2]%Z = Ok feat)
    by reflexivity.
  split; [exact E|].
  apply (@successful_call_allocates R Rfloat [signal_1_to_6] 0
           signal_1_to_6 [4; 2]%Z feat eq_refl E).
Defined.

Lemma feature_count_witness :
  length (KSM1 wide_signal) = 6 * Nat.min 2 3 /\
  length (window_features wide_signal) = 6 * Nat.min 2 3 /\
  (2 = 0 \/ 3 = 0 -> KSM1 wide_signal = []).
Proof.
  exact (@KSM1_feature_count R Rfloat wide_signal wf_wide_signal).
Defined.

Lemma row_alone_witness :
  exists feat,
    getTDPSDfeatv3 signal_1_to_6 [4; 2]%Z = Ok feat /\
    getTDPSDfeatv3 (window signal_1_to_6 4 2 1) [4; 2]%Z
    = Ok (mkarr 1 (shape1 signal_1_to_6 * 6) [nth 1 (data feat) []]).
Proof.
  apply (@row_is_call_on_window R Rfloat signal_1_to_6 4%Z 2%Z [] 1).
  - exact wf_signal_1_to_6.
  - cbn; lia.
  - lia.
  - cbn; lia.
  - cbn; lia.
Defined.

(** The identity stands in for the C library here: it sends NaN to NaN. *)
Lemma one_sample_witness :
  @KSM1 _ Binary64_plain (mkarr 1 1 [[5%float]])
  = [PrimFloat.abs
       (PrimFloat.div (PrimFloat.sqrt (PrimFloat.mul 5 5))
                      0x1.999999999999ap-4);
     nan; nan; nan; nan; 0%float].
Proof.
  apply (@one_sample_window_features (fun a => a) (fun a _ => a)
           (fun _ _ _ _ l => fold_left PrimFloat.add l 0%float)
           (fun _ _ => None) eq_refl 5%float).
Defined.
